(** * littleorm: a shallow embedding of the query builder, its context pool
      and its transaction helper (littleorm.go)

    The builder methods are functions on the [Context] record; the methods
    that touch the pool or the database are state-passing functions on a
    [World] that holds the allocated contexts by address, the content of
    [db.pool] and the calls made on sqlx. What sqlx answers is a parameter
    ([Driver]). Panics are results ([outcome]). Left out: the two
    [log.Printf] lines, and the deadline of [context.WithTimeout], whose
    only effect on the package is the error the driver returns. *)

From Stdlib Require Import ZArith Lia DecimalString.
From stdpp Require Import base relations list strings.
Import ListNotations.

Local Open Scope Z_scope.

(** ** Constants of the package *)

Definition Grouping : string := " and ".
Definition ParamMarker : string := "?".
Definition DBTag : string := "db".
Definition SeqComma : string := ", ".
Definition SeqSpace : string := " ".

Definition SelectTypeOne : Z := 0.
Definition SelectTypeMany : Z := 1.

(** ** Data *)

(** A dynamically typed Go value ([interface{}]) as far as the builder is
    concerned: it only stores such values and hands them to the driver. *)
Inductive any : Type :=
| ANil
| AInt (z : Z)
| AStr (s : string)
| ABool (b : bool).

(** A transaction handle ([*sqlx.Tx]); the nil pointer is [None] wherever a
    handle is optional. *)
Definition Tx := nat.

(** Go's [error] interface value; [None] is the nil error. *)
Definition error := string.

(** [Context] of littleorm.go, without the back pointer to the single [DB]
    that owns the pool. [int64] fields are integers that the builder never
    does arithmetic on. *)
Record Context : Type := mkContext {
  ctx_tx : option Tx;
  ctx_sql : string;
  ctx_name : string;
  ctx_what : list string;
  ctx_wheres : list string;
  ctx_order : string;
  ctx_group : string;
  ctx_having : string;
  ctx_limit : Z;
  ctx_offset : Z;
  ctx_args : list any;
  ctx_lockX : bool;
  ctx_lockS : bool
}.

(** ** String utilities *)

(** [strings.Join] of the Go library. *)
Fixpoint strings_Join (elems : list string) (sep : string) : string :=
  match elems with
  | [] => ""
  | [s] => s
  | s :: rest => s +:+ sep +:+ strings_Join rest sep
  end.

(** [fmt.Sprintf("%d", z)] for an integer. *)
Definition fmt_d (z : Z) : string := NilZero.string_of_int (Z.to_int z).

Definition sqljoin (args : list string) (seq : string) : string :=
  strings_Join args seq.

Definition sqlwhere (wheres : list string) (grouping : string) : string :=
  if (0 <? length wheres)%nat
  then "where " +:+ strings_Join wheres grouping
  else "".

(** ** Configuration methods: each one updates the context in place and
    returns it; here, the new value of the record. *)

Definition Name (name : string) (c : Context) : Context :=
  mkContext (ctx_tx c) (ctx_sql c) name (ctx_what c) (ctx_wheres c)
    (ctx_order c) (ctx_group c) (ctx_having c) (ctx_limit c) (ctx_offset c)
    (ctx_args c) (ctx_lockX c) (ctx_lockS c).

Definition What (what : list string) (c : Context) : Context :=
  mkContext (ctx_tx c) (ctx_sql c) (ctx_name c) what (ctx_wheres c)
    (ctx_order c) (ctx_group c) (ctx_having c) (ctx_limit c) (ctx_offset c)
    (ctx_args c) (ctx_lockX c) (ctx_lockS c).

Definition Where (where_ : string) (args : list any) (c : Context) : Context :=
  mkContext (ctx_tx c) (ctx_sql c) (ctx_name c) (ctx_what c)
    (ctx_wheres c ++ [where_])
    (ctx_order c) (ctx_group c) (ctx_having c) (ctx_limit c) (ctx_offset c)
    (ctx_args c ++ args) (ctx_lockX c) (ctx_lockS c).

(** The loop [for i := 0; i < n; i++ { places[i] = ParamMarker }] over the
    slice [make([]string, n)]; [i] counts up, [fuel] is [n - i]. *)
Fixpoint fill_places (places : list string) (i fuel : nat) : list string :=
  match fuel with
  | O => places
  | S fuel' => fill_places (<[i := ParamMarker]> places) (S i) fuel'
  end.

Definition WhereIn (field : string) (args : list any) (c : Context) : Context :=
  let n := length args in
  let places := fill_places (replicate n "") 0 n in
  let inWhere := field +:+ " in (" +:+ sqljoin places SeqComma +:+ ")" in
  Where inWhere args c.

Definition Order (order : string) (c : Context) : Context :=
  mkContext (ctx_tx c) (ctx_sql c) (ctx_name c) (ctx_what c) (ctx_wheres c)
    order (ctx_group c) (ctx_having c) (ctx_limit c) (ctx_offset c)
    (ctx_args c) (ctx_lockX c) (ctx_lockS c).

Definition Limit (limit : Z) (c : Context) : Context :=
  mkContext (ctx_tx c) (ctx_sql c) (ctx_name c) (ctx_what c) (ctx_wheres c)
    (ctx_order c) (ctx_group c) (ctx_having c) limit (ctx_offset c)
    (ctx_args c) (ctx_lockX c) (ctx_lockS c).

Definition Offset (offset : Z) (c : Context) : Context :=
  mkContext (ctx_tx c) (ctx_sql c) (ctx_name c) (ctx_what c) (ctx_wheres c)
    (ctx_order c) (ctx_group c) (ctx_having c) (ctx_limit c) offset
    (ctx_args c) (ctx_lockX c) (ctx_lockS c).

Definition Group (group : string) (c : Context) : Context :=
  mkContext (ctx_tx c) (ctx_sql c) (ctx_name c) (ctx_what c) (ctx_wheres c)
    (ctx_order c) group (ctx_having c) (ctx_limit c) (ctx_offset c)
    (ctx_args c) (ctx_lockX c) (ctx_lockS c).

Definition Having (having : string) (args : list any) (c : Context) : Context :=
  mkContext (ctx_tx c) (ctx_sql c) (ctx_name c) (ctx_what c) (ctx_wheres c)
    (ctx_order c) (ctx_group c) having (ctx_limit c) (ctx_offset c)
    (ctx_args c ++ args) (ctx_lockX c) (ctx_lockS c).

Definition LockX (c : Context) : Context :=
  mkContext (ctx_tx c) (ctx_sql c) (ctx_name c) (ctx_what c) (ctx_wheres c)
    (ctx_order c) (ctx_group c) (ctx_having c) (ctx_limit c) (ctx_offset c)
    (ctx_args c) true (ctx_lockS c).

Definition LockS (c : Context) : Context :=
  mkContext (ctx_tx c) (ctx_sql c) (ctx_name c) (ctx_what c) (ctx_wheres c)
    (ctx_order c) (ctx_group c) (ctx_having c) (ctx_limit c) (ctx_offset c)
    (ctx_args c) (ctx_lockX c) true.

Definition set_tx (tx : option Tx) (c : Context) : Context :=
  mkContext tx (ctx_sql c) (ctx_name c) (ctx_what c) (ctx_wheres c)
    (ctx_order c) (ctx_group c) (ctx_having c) (ctx_limit c) (ctx_offset c)
    (ctx_args c) (ctx_lockX c) (ctx_lockS c).

Definition set_sql (sql : string) (c : Context) : Context :=
  mkContext (ctx_tx c) sql (ctx_name c) (ctx_what c) (ctx_wheres c)
    (ctx_order c) (ctx_group c) (ctx_having c) (ctx_limit c) (ctx_offset c)
    (ctx_args c) (ctx_lockX c) (ctx_lockS c).

Definition set_args (args : list any) (c : Context) : Context :=
  mkContext (ctx_tx c) (ctx_sql c) (ctx_name c) (ctx_what c) (ctx_wheres c)
    (ctx_order c) (ctx_group c) (ctx_having c) (ctx_limit c) (ctx_offset c)
    args (ctx_lockX c) (ctx_lockS c).

(** [reset] assigns every field but [db]. *)
Definition reset (c : Context) : Context :=
  mkContext None "" "" [] [] "" "" "" 0 0 [] false false.

(** [&Context{db: db}]: every other field has its zero value. *)
Definition allocateContext : Context :=
  mkContext None "" "" [] [] "" "" "" 0 0 [] false false.

(** ** Panics *)

(** The run-time panics the package can raise: the explicit one of [find],
    those of package [reflect] inside [decodetags], and a method call
    through a nil pointer or nil interface. *)
Inductive panic : Type :=
| PanicSelectType      (* panic("select type err") *)
| PanicReflect         (* reflect: Type of the zero Value, Elem or NumField of a wrong kind *)
| PanicNilDeref.       (* invalid memory address or nil pointer dereference *)

Inductive outcome (A : Type) : Type :=
| Done (a : A)
| Panics (p : panic).
Arguments Done {A} a.
Arguments Panics {A} p.

#[export] Instance outcome_ret : MRet outcome := fun A a => Done a.
#[export] Instance outcome_bind : MBind outcome := fun A B f m =>
  match m with
  | Done a => f a
  | Panics p => Panics p
  end.

(** ** Destinations and the [db] tags of their fields *)

(** A struct field as [decodetags] sees it: its name and its tag, the tag
    being the sequence of [key:"value"] pairs in the order written. *)
Record StructField : Type := mkField {
  sf_name : string;
  sf_tag : list (string * string)
}.

(** The dynamic type of a destination, as package [reflect] reports it. *)
Inductive rtype : Type :=
| TBasic (kind : string)
| TPtr (elem : rtype)
| TSlice (elem : rtype)
| TArray (len : nat) (elem : rtype)
| TMap (key elem : rtype)
| TChan (elem : rtype)
| TStruct (fields : list StructField).

(** A destination ([dest interface{}]): its dynamic type, [None] for the nil
    interface value. *)
Definition Dest := option rtype.

(** [StructTag.Get]: the value of the first pair with that key, else [""]. *)
Fixpoint Tag_Get (tag : list (string * string)) (key : string) : string :=
  match tag with
  | [] => ""
  | (k, v) :: rest => if String.eqb k key then v else Tag_Get rest key
  end.

(** [Type.Elem]: defined on arrays, channels, maps, pointers and slices. *)
Definition Type_Elem (t : rtype) : outcome rtype :=
  match t with
  | TPtr e | TSlice e | TArray _ e | TMap _ e | TChan e => Done e
  | TBasic _ | TStruct _ => Panics PanicReflect
  end.

Definition is_Slice (t : rtype) : bool :=
  match t with TSlice _ => true | _ => false end.

(** The loop of [decodetags] over the fields of the base type. *)
Fixpoint decodetags_loop (base : list StructField) (fields : list string)
  : list string :=
  match base with
  | [] => fields
  | f :: rest =>
      let dbTag := Tag_Get (sf_tag f) DBTag in
      if negb (String.eqb dbTag "")
      then decodetags_loop rest (fields ++ [dbTag])
      else decodetags_loop rest fields
  end.

Definition decodetags (dest : Dest) : outcome (list string) :=
  match dest with
  | None => Panics PanicReflect
  | Some ty =>
      slice ← Type_Elem ty;
      base ← (if is_Slice slice then Type_Elem slice else Done slice);
      match base with
      | TStruct fs => Done (decodetags_loop fs [])
      | _ => Panics PanicReflect
      end
  end.

(** ** Assembly of the select statement *)

Definition sqlselect (c : Context) (dest : Dest) : outcome string :=
  let sqlArray : list string := [] in
  let sqlArray := sqlArray ++ ["select"] in
  sqlArray ←
    (if negb (length (ctx_what c) =? 0)%nat
     then Done (sqlArray ++ [sqljoin (ctx_what c) SeqComma])
     else
       whatFields ← decodetags dest;
       if (0 <? length whatFields)%nat
       then Done (sqlArray ++ [sqljoin whatFields SeqComma])
       else Done (sqlArray ++ ["*"]));
  let sqlArray := sqlArray ++ ["from " +:+ ctx_name c] in
  let sqlArray :=
    if negb (length (ctx_wheres c) =? 0)%nat
    then sqlArray ++ [sqlwhere (ctx_wheres c) Grouping] else sqlArray in
  let sqlArray :=
    if negb (String.eqb (ctx_group c) "")
    then sqlArray ++ ["group by " +:+ ctx_group c] else sqlArray in
  let sqlArray :=
    if negb (String.eqb (ctx_having c) "")
    then sqlArray ++ ["having " +:+ ctx_having c] else sqlArray in
  let sqlArray :=
    if negb (String.eqb (ctx_order c) "")
    then sqlArray ++ ["order by " +:+ ctx_order c] else sqlArray in
  let sqlArray :=
    if negb (ctx_limit c =? 0)
    then sqlArray ++ ["limit " +:+ fmt_d (ctx_offset c) +:+ ", " +:+ fmt_d (ctx_limit c)]
    else sqlArray in
  let sqlArray :=
    if ctx_lockS c then sqlArray ++ ["lock in share mode"] else sqlArray in
  let sqlArray :=
    if ctx_lockX c then sqlArray ++ ["for update"] else sqlArray in
  Done (sqljoin sqlArray SeqSpace).

(** ** The database behind the builder *)

(** Addresses of the [Context] objects the pool hands out ([*Context]). *)
Abbreviation addr := nat (only parsing).

(** The calls the package makes on sqlx: on the transaction [tx] when the
    first argument is [Some tx], on the [DB] itself when it is [None]. *)
Inductive call : Type :=
| CExec (tx : option Tx) (query : string) (args : list any)
| CGet (tx : option Tx) (dest : Dest) (query : string) (args : list any)
| CSelect (tx : option Tx) (dest : Dest) (query : string) (args : list any)
| CBeginx
| CCommit (tx : Tx)
| CRollback (tx : Tx).

(** [sql.Result]: what its two methods return. *)
Record Result : Type := mkResult {
  LastInsertId : Z * option error;
  RowsAffected : Z * option error
}.

(** The answers of sqlx and of the driver below it. Each answer may depend on
    the calls made so far, so that a driver with state (a failed connection,
    a finished transaction, a deadline that has passed) is an instance. *)
Record Driver : Type := mkDriver {
  ExecContext : list call -> option Tx -> string -> list any
                -> option Result * option error;
  GetContext : list call -> option Tx -> Dest -> string -> list any
               -> option error;
  SelectContext : list call -> option Tx -> Dest -> string -> list any
                  -> option error;
  Beginx : list call -> option Tx * option error;
  Commit : list call -> Tx -> option error;
  Rollback : list call -> Tx -> option error
}.

(** The state of one [DB]: the contexts allocated so far, by address; the
    addresses that sit in [db.pool]; the choices [sync.Pool.Get] will make
    ([Some i]: hand out the i-th pooled item, [None] or an index out of
    range: treat the pool as empty and call [New]); the calls made on the
    driver, oldest first. *)
Record World : Type := mkWorld {
  heap : list Context;
  idle : list addr;
  picks : list (option nat);
  calls : list call
}.

Definition set_heap (h : list Context) (w : World) : World :=
  mkWorld h (idle w) (picks w) (calls w).
Definition set_idle (l : list addr) (w : World) : World :=
  mkWorld (heap w) l (picks w) (calls w).
Definition set_picks (l : list (option nat)) (w : World) : World :=
  mkWorld (heap w) (idle w) l (calls w).
Definition log_call (c : call) (w : World) : World :=
  mkWorld (heap w) (idle w) (picks w) (calls w ++ [c]).

(** Assignment through a [*Context]. *)
Definition modify (p : addr) (f : Context -> Context) (w : World) : World :=
  set_heap (alter f p (heap w)) w.

(** [db.pool.Put(ctx)] *)
Definition pool_Put (p : addr) (w : World) : World :=
  set_idle (p :: idle w) w.

(** [res.pool.New]: a new object from [allocateContext]. *)
Definition pool_New (w : World) : addr * World :=
  (length (heap w), set_heap (heap w ++ [allocateContext]) w).

(** [db.pool.Get()] *)
Definition pool_Get (w : World) : addr * World :=
  match picks w with
  | Some i :: rest =>
      match idle w !! i with
      | Some p => (p, set_idle (delete i (idle w)) (set_picks rest w))
      | None => pool_New (set_picks rest w)
      end
  | None :: rest => pool_New (set_picks rest w)
  | [] => pool_New w
  end.

Definition Acquire (w : World) : addr * World :=
  let '(ctx, w) := pool_Get w in
  (ctx, modify ctx reset w).

Definition AcquireTx (tx : option Tx) (w : World) : addr * World :=
  let '(ctx, w) := Acquire w in
  (ctx, modify ctx (set_tx tx) w).

(** The loops of [InsertBatch]: over one row, then over the rows. *)
Fixpoint InsertBatch_item (item : list any) (i : nat)
    (places : list string) (params : list any) : list string * list any :=
  match item with
  | [] => (places, params)
  | v :: rest =>
      InsertBatch_item rest (S i) (<[i := ParamMarker]> places) (params ++ [v])
  end.

Fixpoint InsertBatch_rows (data : list (list any))
    (params : list any) (values : list string) : list any * list string :=
  match data with
  | [] => (params, values)
  | item :: rest =>
      let '(places, params) :=
        InsertBatch_item item 0 (replicate (length item) "") params in
      InsertBatch_rows rest params
        (values ++ ["(" +:+ sqljoin places SeqComma +:+ ")"])
  end.

(** The loop of [Insert] over the map, in the order [range] yields it. *)
Fixpoint Insert_loop (data : list (string * any))
    (fields : list string) (params : list any) : list string * list any :=
  match data with
  | [] => (fields, params)
  | (k, v) :: rest => Insert_loop rest (fields ++ [k]) (params ++ [v])
  end.

(** The loop of [UpdateMap] over the map, in the order [range] yields it. *)
Fixpoint UpdateMap_loop (data : list (string * any))
    (params : list any) (sets : list string) : list any * list string :=
  match data with
  | [] => (params, sets)
  | (k, v) :: rest =>
      UpdateMap_loop rest (params ++ [v]) (sets ++ [k +:+ "=" +:+ ParamMarker])
  end.

Section Machine.

Variable drv : Driver.

(** [exec]: the deferred [Put] runs when the driver call has returned. *)
Definition exec (p : addr) (query : string) (args : list any) (w : World)
  : outcome (option Result * option error) * World :=
  match heap w !! p with
  | None => (Panics PanicNilDeref, w)
  | Some c =>
      let r := ExecContext drv (calls w) (ctx_tx c) query args in
      let w := log_call (CExec (ctx_tx c) query args) w in
      (Done r, pool_Put p w)
  end.

(** [find]: the deferred [Put] runs on every exit, a panic included. *)
Definition find (p : addr) (dest : Dest) (selectType : Z) (w : World)
  : outcome (option error) * World :=
  match heap w !! p with
  | None => (Panics PanicNilDeref, w)
  | Some c =>
      let '(r, w) :=
        let '(sql, w) :=
          if String.eqb (ctx_sql c) ""
          then match sqlselect c dest with
               | Done s => (Done s, modify p (set_sql s) w)
               | Panics e => (Panics e, w)
               end
          else (Done (ctx_sql c), w) in
        match sql with
        | Panics e => (Panics e, w)
        | Done sql =>
            if selectType =? SelectTypeOne then
              (Done (GetContext drv (calls w) (ctx_tx c) dest sql (ctx_args c)),
               log_call (CGet (ctx_tx c) dest sql (ctx_args c)) w)
            else if selectType =? SelectTypeMany then
              (Done (SelectContext drv (calls w) (ctx_tx c) dest sql (ctx_args c)),
               log_call (CSelect (ctx_tx c) dest sql (ctx_args c)) w)
            else (Panics PanicSelectType, w)
        end in
      (r, pool_Put p w)
  end.

Definition FindMany (p : addr) (dest : Dest) : World -> outcome (option error) * World :=
  find p dest SelectTypeMany.

Definition FindOne (p : addr) (dest : Dest) : World -> outcome (option error) * World :=
  find p dest SelectTypeOne.

Definition InsertBatch (p : addr) (fields : list string) (data : list (list any))
    (w : World) : outcome (option Result * option error) * World :=
  let '(params, values) := InsertBatch_rows data [] [] in
  match heap w !! p with
  | None => (Panics PanicNilDeref, w)
  | Some c =>
      let query := "insert into " +:+ ctx_name c +:+ " (" +:+
                   sqljoin fields SeqComma +:+ ") values " +:+
                   sqljoin values SeqComma in
      exec p query params w
  end.

Definition Insert (p : addr) (data : list (string * any)) (w : World)
  : outcome (option Result * option error) * World :=
  let '(fields, params) := Insert_loop data [] [] in
  InsertBatch p fields [params] w.

(** The tail of [Update] and of [Delete]: the error of [exec], else
    [result.RowsAffected()]. *)
Definition rows_of (r : outcome (option Result * option error))
  : outcome (Z * option error) :=
  res ← r;
  match res with
  | (_, Some err) => Done (0, Some err)
  | (Some result, None) => Done (RowsAffected result)
  | (None, None) => Panics PanicNilDeref
  end.

Definition Update (p : addr) (sqlset : string) (args : list any) (w : World)
  : outcome (Z * option error) * World :=
  match heap w !! p with
  | None => (Panics PanicNilDeref, w)
  | Some c =>
      let where_ := sqlwhere (ctx_wheres c) Grouping in
      let query := "update " +:+ ctx_name c +:+ " set " +:+ sqlset +:+ " " +:+ where_ in
      let params := args ++ ctx_args c in
      let '(r, w) := exec p query params w in
      (rows_of r, w)
  end.

Definition UpdateMap (p : addr) (args : list (string * any)) (w : World)
  : outcome (Z * option error) * World :=
  let '(params, sets) := UpdateMap_loop args [] [] in
  let sqlset := sqljoin sets SeqComma in
  Update p sqlset params w.

Definition Delete (p : addr) (w : World) : outcome (Z * option error) * World :=
  match heap w !! p with
  | None => (Panics PanicNilDeref, w)
  | Some c =>
      let where_ := sqlwhere (ctx_wheres c) Grouping in
      let query := "delete from " +:+ ctx_name c +:+ " " +:+ where_ in
      let '(r, w) := exec p query (ctx_args c) w in
      (rows_of r, w)
  end.

Definition Select (p : addr) (dest : Dest) (sql : string) (args : list any)
    (w : World) : outcome (option error) * World :=
  find p dest SelectTypeMany (modify p (set_args args) (modify p (set_sql sql) w)).

Definition Get (p : addr) (dest : Dest) (sql : string) (args : list any)
    (w : World) : outcome (option error) * World :=
  find p dest SelectTypeOne (modify p (set_args args) (modify p (set_sql sql) w)).

Definition Exec (p : addr) (sql : string) (args : list any) (w : World)
  : outcome (option Result * option error) * World :=
  exec p sql args w.

Definition Create (p : addr) (sql : string) (w : World)
  : outcome (option Result * option error) * World :=
  exec p sql [] w.

Definition Drop (p : addr) (w : World)
  : outcome (option Result * option error) * World :=
  match heap w !! p with
  | None => (Panics PanicNilDeref, w)
  | Some c => exec p ("DROP TABLE IF EXISTS " +:+ ctx_name c) [] w
  end.

(** [FuncTx]: the unit of work, a Go function that may itself use the
    database. *)
Definition FuncTx : Type :=
  option Tx -> any -> World -> outcome (option error) * World.

(** The function deferred by [WithTx], run with the value [err] has when the
    function body is left. *)
Definition WithTx_deferred (tx : option Tx) (err : option error) (w : World)
  : outcome (option error) * World :=
  match err, tx with
  | Some _, Some t =>
      (Done (Rollback drv (calls w) t), log_call (CRollback t) w)
  | _, _ => (Done err, w)
  end.

Definition WithTx (h : FuncTx) (args : any) (w : World)
  : outcome (option error) * World :=
  let '(tx, err) := Beginx drv (calls w) in
  let w := log_call CBeginx w in
  match err with
  | Some e => (Done (Some e), w)
  | None =>
      match h tx args w with
      | (Panics e, w) => (Panics e, w)
      | (Done (Some e), w) => WithTx_deferred tx (Some e) w
      | (Done None, w) =>
          match tx with
          | None => (Panics PanicNilDeref, w)
          | Some t =>
              let err := Commit drv (calls w) t in
              WithTx_deferred tx err (log_call (CCommit t) w)
          end
      end
  end.

(** The terminal operations of a context, with their arguments. *)
Inductive terminal : Type :=
| OpFindOne (dest : Dest)
| OpFindMany (dest : Dest)
| OpInsert (data : list (string * any))
| OpInsertBatch (fields : list string) (data : list (list any))
| OpUpdate (sqlset : string) (args : list any)
| OpUpdateMap (args : list (string * any))
| OpDelete
| OpSelect (dest : Dest) (sql : string) (args : list any)
| OpGet (dest : Dest) (sql : string) (args : list any)
| OpExec (sql : string) (args : list any)
| OpCreate (sql : string)
| OpDrop.

(** How a terminal operation ended: [None] when it returned without an
    error, [Some (inl e)] when it returned the error [e], [Some (inr p)]
    when it panicked. *)
Definition ending : Type := option (error + panic).

Definition ending_err (o : outcome (option error)) : ending :=
  match o with
  | Done None => None
  | Done (Some e) => Some (inl e)
  | Panics p => Some (inr p)
  end.

Definition ending_snd {A : Type} (o : outcome (A * option error)) : ending :=
  match o with
  | Done (_, None) => None
  | Done (_, Some e) => Some (inl e)
  | Panics p => Some (inr p)
  end.

Definition run_terminal (op : terminal) (p : addr) (w : World) : ending * World :=
  match op with
  | OpFindOne dest => let '(r, w) := FindOne p dest w in (ending_err r, w)
  | OpFindMany dest => let '(r, w) := FindMany p dest w in (ending_err r, w)
  | OpInsert data => let '(r, w) := Insert p data w in (ending_snd r, w)
  | OpInsertBatch fields data =>
      let '(r, w) := InsertBatch p fields data w in (ending_snd r, w)
  | OpUpdate sqlset args => let '(r, w) := Update p sqlset args w in (ending_snd r, w)
  | OpUpdateMap args => let '(r, w) := UpdateMap p args w in (ending_snd r, w)
  | OpDelete => let '(r, w) := Delete p w in (ending_snd r, w)
  | OpSelect dest sql args => let '(r, w) := Select p dest sql args w in (ending_err r, w)
  | OpGet dest sql args => let '(r, w) := Get p dest sql args w in (ending_err r, w)
  | OpExec sql args => let '(r, w) := Exec p sql args w in (ending_snd r, w)
  | OpCreate sql => let '(r, w) := Create p sql w in (ending_snd r, w)
  | OpDrop => let '(r, w) := Drop p w in (ending_snd r, w)
  end.

End Machine.

(** ** Concrete data used in the examples *)

(** The struct [LittleOrm] of the package's tests. *)
Definition LittleOrm : rtype :=
  TStruct [ mkField "Id" [("db", "id"); ("json", "id")];
            mkField "Name" [("db", "name")];
            mkField "Age" [("db", "age")];
            mkField "CreatedAt" [("db", "created_at")];
            mkField "UpdatedAt" [("db", "updated_at")] ].

(** A database on which every call succeeds. *)
Definition drv_ok : Driver :=
  mkDriver
    (fun _ _ _ _ => (Some (mkResult (1, None) (1, None)), None))
    (fun _ _ _ _ _ => None)
    (fun _ _ _ _ _ => None)
    (fun _ => (Some 7%nat, None))
    (fun _ _ => None)
    (fun _ _ => None).

(** [sql.ErrTxDone], the error of database/sql for a call on a transaction
    that is over. *)
Definition ErrTxDone : error :=
  "sql: transaction has already been committed or rolled back".

(** Whether Commit has been called on the transaction [t]. *)
Definition commit_called (t : Tx) (history : list call) : bool :=
  existsb (fun c => match c with CCommit t' => Nat.eqb t t' | _ => false end)
    history.

(** A database on which commit fails. As in database/sql, a transaction on
    which Commit has been called is over, whether the commit succeeded or
    not, and Rollback on it returns [ErrTxDone]. *)
Definition drv_commit_fails : Driver :=
  mkDriver
    (fun _ _ _ _ => (Some (mkResult (1, None) (1, None)), None))
    (fun _ _ _ _ _ => None)
    (fun _ _ _ _ _ => None)
    (fun _ => (Some 7%nat, None))
    (fun _ _ => Some "commit failed")
    (fun history t => if commit_called t history then Some ErrTxDone else None).

(** A world with nothing allocated, pooled or called yet. *)
Definition world0 : World := mkWorld [] [] [] [].

(** ** The properties in the words of the specification *)

(** An optional clause of a statement: present as a whole, or absent. *)
Definition clause (present : bool) (text : string) : list string :=
  if present then [text] else [].

(** The columns a list of struct fields declares with [db] tags. *)
Definition tag_columns (fs : list StructField) : list string :=
  List.filter (fun col => negb (String.eqb col ""))
    (map (fun f => Tag_Get (sf_tag f) DBTag) fs).

(** Destinations in the documented domain of [decodetags]: a pointer to a
    struct, or a pointer to a slice of structs. *)
Definition struct_dest (dest : Dest) : bool :=
  match dest with
  | Some (TPtr (TStruct _)) | Some (TPtr (TSlice (TStruct _))) => true
  | _ => false
  end.

(** The tag-declared columns of a destination; none when the destination has
    no struct fields to declare them on. *)
Definition declared_columns (dest : Dest) : list string :=
  match dest with
  | Some (TPtr (TStruct fs)) | Some (TPtr (TSlice (TStruct fs))) => tag_columns fs
  | _ => []
  end.

(** The projection: the explicit one, else the tag-declared columns of the
    destination, else "*". *)
Definition projection_spec (c : Context) (dest : Dest) : string :=
  match ctx_what c, declared_columns dest with
  | _ :: _, _ => String.concat ", " (ctx_what c)
  | [], _ :: _ => String.concat ", " (declared_columns dest)
  | [], [] => "*"
  end.

(** The select statement in the words of the specification: a fixed
    sequence of clauses joined with single spaces. *)
Definition select_spec (c : Context) (dest : Dest) : string :=
  String.concat " "
    (["select"; projection_spec c dest; "from " +:+ ctx_name c]
     ++ clause (negb (bool_decide (ctx_wheres c = [])))
          ("where " +:+ String.concat " and " (ctx_wheres c))
     ++ clause (negb (bool_decide (ctx_group c = ""))) ("group by " +:+ ctx_group c)
     ++ clause (negb (bool_decide (ctx_having c = ""))) ("having " +:+ ctx_having c)
     ++ clause (negb (bool_decide (ctx_order c = ""))) ("order by " +:+ ctx_order c)
     ++ clause (negb (bool_decide (ctx_limit c = 0)))
          ("limit " +:+ fmt_d (ctx_offset c) +:+ ", " +:+ fmt_d (ctx_limit c))
     ++ clause (ctx_lockS c) "lock in share mode"
     ++ clause (ctx_lockX c) "for update").

(** One value group of the statement, in the words of the specification: a
    parenthesised list with one "?" per element of the row. *)
Definition value_group (row : list any) : string :=
  "(" +:+ String.concat ", " (replicate (length row) "?") +:+ ")".

(** Every address in the pool is the address of an allocated context. *)
Definition pool_wf (w : World) : Prop :=
  Forall (fun q => (q < length (heap w))%nat) (idle w).

(** [w1] is [w] with the context at [p] put into the pool once, and nothing
    else done to the pool. *)
Definition released (p : addr) (w w1 : World) : Prop :=
  idle w1 = p :: idle w
  /\ length (heap w1) = length (heap w)
  /\ picks w1 = picks w.

(** The zero/empty state of a context. *)
Definition zero_state (c : Context) : Prop :=
  ctx_sql c = "" /\ ctx_name c = "" /\ ctx_what c = [] /\ ctx_wheres c = []
  /\ ctx_args c = [] /\ ctx_group c = "" /\ ctx_having c = ""
  /\ ctx_order c = "" /\ ctx_limit c = 0 /\ ctx_offset c = 0
  /\ ctx_tx c = None /\ ctx_lockX c = false /\ ctx_lockS c = false.



(** A unit of work that does nothing and reports no error. *)
Definition h_ok : FuncTx := fun _ _ w => (Done None, w).

(** A unit of work that fails. *)
Definition h_fails : FuncTx := fun _ _ w => (Done (Some "update row affect error"), w).

(** A database on which no transaction can be begun. *)
Definition drv_begin_fails : Driver :=
  mkDriver
    (fun _ _ _ _ => (None, Some "bad connection"))
    (fun _ _ _ _ _ => Some "bad connection")
    (fun _ _ _ _ _ => Some "bad connection")
    (fun _ => (None, Some "bad connection"))
    (fun _ _ => Some "bad connection")
    (fun _ _ => Some "bad connection").

(** ** Further notions used in the properties *)

(** What a driver call is made on: [Some (Some tx)] for a statement run on
    the transaction [tx], [Some None] for a statement run on the [DB], [None]
    for the calls that manage a transaction. *)
Definition call_tx (k : call) : option (option Tx) :=
  match k with
  | CExec tx _ _ | CGet tx _ _ _ | CSelect tx _ _ _ => Some tx
  | CBeginx | CCommit _ | CRollback _ => None
  end.

(** A call of a configuration method, with its arguments. *)
Inductive config : Type :=
| CfgName (name : string)
| CfgWhat (what : list string)
| CfgWhere (where_ : string) (args : list any)
| CfgWhereIn (field : string) (args : list any)
| CfgOrder (order : string)
| CfgLimit (limit : Z)
| CfgOffset (offset : Z)
| CfgGroup (group : string)
| CfgHaving (having : string) (args : list any)
| CfgLockX
| CfgLockS.

Definition configure (k : config) : Context -> Context :=
  match k with
  | CfgName name => Name name
  | CfgWhat what => What what
  | CfgWhere where_ args => Where where_ args
  | CfgWhereIn field args => WhereIn field args
  | CfgOrder order => Order order
  | CfgLimit limit => Limit limit
  | CfgOffset offset => Offset offset
  | CfgGroup group => Group group
  | CfgHaving having args => Having having args
  | CfgLockX => LockX
  | CfgLockS => LockS
  end.

(** A chain of configuration calls, the first call first. *)
Definition configure_all (ks : list config) (c : Context) : Context :=
  fold_left (fun c k => configure k c) ks c.

(** The number of parameter markers (the character of code 63, "?") in a
    string. *)
Fixpoint count_marker (s : string) : nat :=
  match s with
  | EmptyString => 0
  | String a s' =>
      ((if Ascii.eqb a (Ascii.ascii_of_nat 63) then 1 else 0) + count_marker s')%nat
  end.

(** The struct whose fields [decodetags] reads, for the destinations it
    accepts: the element of a pointer, slice, array, map or channel, or the
    element of that element when the latter is a slice. *)
Definition dest_fields (dest : Dest) : option (list StructField) :=
  match dest with
  | Some (TPtr e) | Some (TSlice e) | Some (TArray _ e) | Some (TMap _ e)
  | Some (TChan e) =>
      match e with
      | TStruct fs | TSlice (TStruct fs) => Some fs
      | _ => None
      end
  | _ => None
  end.

(** The clauses of a select statement with the projection [proj]. *)
Definition select_clauses (c : Context) (proj : string) : list string :=
  ["select"; proj; "from " +:+ ctx_name c]
  ++ clause (negb (bool_decide (ctx_wheres c = [])))
       ("where " +:+ String.concat " and " (ctx_wheres c))
  ++ clause (negb (bool_decide (ctx_group c = ""))) ("group by " +:+ ctx_group c)
  ++ clause (negb (bool_decide (ctx_having c = ""))) ("having " +:+ ctx_having c)
  ++ clause (negb (bool_decide (ctx_order c = ""))) ("order by " +:+ ctx_order c)
  ++ clause (negb (bool_decide (ctx_limit c = 0)))
       ("limit " +:+ fmt_d (ctx_offset c) +:+ ", " +:+ fmt_d (ctx_limit c)).

(** The projection of a select statement: the explicit one, else the
    columns [decodetags] finds, else "*". *)
Definition select_projection (c : Context) (dest : Dest) : outcome string :=
  match ctx_what c with
  | _ :: _ => Done (String.concat ", " (ctx_what c))
  | [] =>
      cols ← decodetags dest;
      match cols with
      | _ :: _ => Done (String.concat ", " cols)
      | [] => Done "*"
      end
  end.

(** The lock clauses, as a suffix of the statement. *)
Definition lock_suffix (c : Context) : string :=
  (if ctx_lockS c then " lock in share mode" else "")
  +:+ (if ctx_lockX c then " for update" else "").

(** Two states of a context that differ at most in the raw statement and
    in the bound parameters. *)
Definition same_configuration (c c1 : Context) : Prop :=
  ctx_tx c1 = ctx_tx c /\ ctx_name c1 = ctx_name c /\ ctx_what c1 = ctx_what c
  /\ ctx_wheres c1 = ctx_wheres c /\ ctx_order c1 = ctx_order c
  /\ ctx_group c1 = ctx_group c /\ ctx_having c1 = ctx_having c
  /\ ctx_limit c1 = ctx_limit c /\ ctx_offset c1 = ctx_offset c
  /\ ctx_lockX c1 = ctx_lockX c /\ ctx_lockS c1 = ctx_lockS c.

(** A terminal operation that issued no statement because it panicked, or
    issued exactly the statement [k], on [tx]. *)
Definition one_call_on (tx : option Tx) (before : list call)
    (e : ending) (after : list call) : Prop :=
  (after = before /\ exists q, e = Some (inr q))
  \/ (exists k, after = before ++ [k] /\ call_tx k = Some tx).

(** The parameters a configuration call binds. *)
Definition config_args (k : config) : list any :=
  match k with
  | CfgWhere _ args | CfgWhereIn _ args | CfgHaving _ args => args
  | _ => []
  end.

(** The filter fragment a configuration call adds, if it adds one. *)
Definition config_filter (k : config) : list string :=
  match k with
  | CfgWhere where_ _ => [where_]
  | CfgWhereIn field args =>
      [field +:+ " in (" +:+ String.concat ", " (replicate (length args) "?") +:+ ")"]
  | _ => []
  end.

(** The column a struct field declares with its [db] tag; [""] for none. *)
Definition db_column (f : StructField) : string := Tag_Get (sf_tag f) DBTag.

(** The calls WithTx makes on the transaction [t] once the unit of work has
    ended with [o], when Commit, if called, answers [commit]. *)
Definition tx_ending (t : Tx) (o : outcome (option error))
    (commit : option error) : list call :=
  match o with
  | Panics _ => []
  | Done (Some _) => [CRollback t]
  | Done None =>
      match commit with
      | None => [CCommit t]
      | Some _ => [CCommit t; CRollback t]
      end
  end.

(** * Properties *)

(** ** Joining strings *)

Lemma strings_Join_concat (elems : list string) (sep : string) :
  strings_Join elems sep = String.concat sep elems.
Proof.
  induction elems as [|s rest IH]; [reflexivity|].
  destruct rest as [|s' rest]; [reflexivity|].
  change (strings_Join (s :: s' :: rest) sep)
    with (s +:+ sep +:+ strings_Join (s' :: rest) sep).
  rewrite IH. reflexivity.
Qed.

Lemma sqljoin_concat (args : list string) (seq : string) :
  sqljoin args seq = String.concat seq args.
Proof. apply strings_Join_concat. Qed.

Lemma sqlwhere_cons (f : string) (F : list string) (grouping : string) :
  sqlwhere (f :: F) grouping = "where " +:+ String.concat grouping (f :: F).
Proof. unfold sqlwhere. cbn [length Nat.ltb Nat.leb]. by rewrite strings_Join_concat. Qed.

(** C5. The WHERE string assembled from the filter fragments F is the empty
    string when F is empty and otherwise "where " followed by the fragments
    joined with " and "; so it is empty exactly when F is. *)
Theorem sqlwhere_law (F : list string) :
  sqlwhere F Grouping =
    match F with
    | [] => ""
    | _ :: _ => "where " +:+ String.concat " and " F
    end
  /\ (sqlwhere F Grouping = "" <-> F = []).
Proof.
  destruct F as [|f F].
  - split; [reflexivity|]. split; reflexivity.
  - rewrite sqlwhere_cons. split; [reflexivity|].
    split; intros H; discriminate H.
Qed.

(** ** WhereIn *)

Lemma fill_places_replicate (k i : nat) :
  fill_places (replicate i ParamMarker ++ replicate k "") i k
  = replicate (i + k) ParamMarker.
Proof.
  revert i. induction k as [|k IH]; intros i; cbn [fill_places].
  - rewrite Nat.add_0_r. apply app_nil_r.
  - replace (<[i:=ParamMarker]> (replicate i ParamMarker ++ replicate (S k) ""))
      with (replicate (S i) ParamMarker ++ replicate k "").
    + rewrite IH. f_equal. lia.
    + rewrite insert_app_r_alt by (rewrite length_replicate; lia).
      rewrite length_replicate, Nat.sub_diag.
      change (<[0%nat:=ParamMarker]> (replicate (S k) ""))
        with ([ParamMarker] ++ replicate k "").
      rewrite (replicate_S_end i), <- app_assoc. reflexivity.
Qed.

Lemma WhereIn_places (n : nat) :
  fill_places (replicate n "") 0 n = replicate n ParamMarker.
Proof. apply (fill_places_replicate n 0). Qed.

(** C6. WhereIn(field, values) appends exactly one filter fragment,
    "<field> in (" followed by one "?" per value joined with ", " and by ")",
    and appends the values, in their order, to the bound parameters; for
    WhereIn("id", [1,2,3]) the fragment is "id in (?, ?, ?)" and the
    parameters are 1, 2, 3. *)
Theorem WhereIn_appends (field : string) (args : list any) (c : Context) :
  ctx_wheres (WhereIn field args c)
    = ctx_wheres c ++
      [field +:+ " in (" +:+ String.concat ", " (replicate (length args) "?") +:+ ")"]
  /\ ctx_args (WhereIn field args c) = ctx_args c ++ args
  /\ length (ctx_wheres (WhereIn field args c)) = S (length (ctx_wheres c))
  /\ length (ctx_args (WhereIn field args c))
     = (length (ctx_args c) + length args)%nat
  /\ ctx_wheres (WhereIn "id" [AInt 1; AInt 2; AInt 3] c)
     = ctx_wheres c ++ ["id in (?, ?, ?)"]
  /\ ctx_args (WhereIn "id" [AInt 1; AInt 2; AInt 3] c)
     = ctx_args c ++ [AInt 1; AInt 2; AInt 3].
Proof.
  assert (Hw : ctx_wheres (WhereIn field args c)
    = ctx_wheres c ++
      [field +:+ " in (" +:+ String.concat ", " (replicate (length args) "?") +:+ ")"]).
  { unfold WhereIn. cbn [Where ctx_wheres].
    by rewrite WhereIn_places, sqljoin_concat. }
  repeat split.
  - exact Hw.
  - rewrite Hw, length_app. cbn [length]. lia.
  - unfold WhereIn. cbn [Where ctx_args]. apply length_app.
Qed.

(** ** The select statement *)

Lemma decodetags_loop_spec (fs : list StructField) (acc : list string) :
  decodetags_loop fs acc = acc ++ tag_columns fs.
Proof.
  revert acc. induction fs as [|f fs IH]; intros acc.
  - symmetry. apply app_nil_r.
  - cbn [decodetags_loop]. unfold tag_columns. cbn [map List.filter].
    destruct (negb (String.eqb (Tag_Get (sf_tag f) DBTag) "")).
    + rewrite IH, <- app_assoc. reflexivity.
    + apply IH.
Qed.

Lemma decodetags_struct_dest (dest : Dest) :
  struct_dest dest = true -> decodetags dest = Done (declared_columns dest).
Proof.
  destruct dest as [[| e | | | | |]|]; try discriminate.
  destruct e as [| | e | | | |]; try discriminate.
  - destruct e; try discriminate. intros _.
    unfold decodetags, declared_columns.
    cbn [Type_Elem is_Slice mbind outcome_bind].
    by rewrite decodetags_loop_spec.
  - intros _. unfold decodetags, declared_columns.
    cbn [Type_Elem is_Slice mbind outcome_bind].
    by rewrite decodetags_loop_spec.
Qed.

Lemma String_eqb_decide (s t : string) : String.eqb s t = bool_decide (s = t).
Proof.
  destruct (String.eqb_spec s t) as [E|E].
  - by rewrite bool_decide_eq_true_2.
  - by rewrite bool_decide_eq_false_2.
Qed.

Lemma Z_eqb_decide (x y : Z) : (x =? y) = bool_decide (x = y).
Proof.
  destruct (Z.eqb_spec x y) as [E|E].
  - by rewrite bool_decide_eq_true_2.
  - by rewrite bool_decide_eq_false_2.
Qed.

(** Once the projection is known, the appends of [sqlselect] build the
    clause list of the specification. *)
Lemma sqlselect_tail (c : Context) (dest : Dest) (proj : string) :
  proj = projection_spec c dest ->
  let sqlArray := ["select"; proj] ++ ["from " +:+ ctx_name c] in
  let sqlArray :=
    if negb (length (ctx_wheres c) =? 0)%nat
    then sqlArray ++ [sqlwhere (ctx_wheres c) Grouping] else sqlArray in
  let sqlArray :=
    if negb (String.eqb (ctx_group c) "")
    then sqlArray ++ ["group by " +:+ ctx_group c] else sqlArray in
  let sqlArray :=
    if negb (String.eqb (ctx_having c) "")
    then sqlArray ++ ["having " +:+ ctx_having c] else sqlArray in
  let sqlArray :=
    if negb (String.eqb (ctx_order c) "")
    then sqlArray ++ ["order by " +:+ ctx_order c] else sqlArray in
  let sqlArray :=
    if negb (ctx_limit c =? 0)
    then sqlArray ++ ["limit " +:+ fmt_d (ctx_offset c) +:+ ", " +:+ fmt_d (ctx_limit c)]
    else sqlArray in
  let sqlArray :=
    if ctx_lockS c then sqlArray ++ ["lock in share mode"] else sqlArray in
  let sqlArray :=
    if ctx_lockX c then sqlArray ++ ["for update"] else sqlArray in
  sqljoin sqlArray SeqSpace = select_spec c dest.
Proof.
  intros ->. cbv zeta. rewrite sqljoin_concat. unfold select_spec, SeqSpace.
  f_equal. rewrite !String_eqb_decide, Z_eqb_decide.
  destruct (ctx_wheres c) as [|f F].
  - cbn [length Nat.eqb negb].
    rewrite (bool_decide_eq_true_2 (@nil string = [])) by reflexivity.
    destruct (bool_decide (ctx_group c = "")), (bool_decide (ctx_having c = "")),
      (bool_decide (ctx_order c = "")), (bool_decide (ctx_limit c = 0)),
      (ctx_lockS c), (ctx_lockX c); reflexivity.
  - cbn [length Nat.eqb negb]. rewrite sqlwhere_cons.
    rewrite (bool_decide_eq_false_2 (f :: F = [])) by discriminate.
    destruct (bool_decide (ctx_group c = "")), (bool_decide (ctx_having c = "")),
      (bool_decide (ctx_order c = "")), (bool_decide (ctx_limit c = 0)),
      (ctx_lockS c), (ctx_lockX c); reflexivity.
Qed.

Lemma sqlselect_what (c : Context) (dest : Dest) :
  ctx_what c <> [] -> sqlselect c dest = Done (select_spec c dest).
Proof.
  intros Hw. unfold sqlselect.
  destruct (ctx_what c) as [|x xs] eqn:E; [done|].
  cbn [length Nat.eqb negb mbind outcome_bind app].
  f_equal. rewrite <- (sqlselect_tail c dest (sqljoin (x :: xs) SeqComma)).
  - reflexivity.
  - unfold projection_spec. rewrite E. apply sqljoin_concat.
Qed.

Lemma sqlselect_struct (c : Context) (dest : Dest) :
  ctx_what c = [] -> struct_dest dest = true ->
  sqlselect c dest = Done (select_spec c dest).
Proof.
  intros E Hd. unfold sqlselect. rewrite E, (decodetags_struct_dest dest Hd).
  cbn [length Nat.eqb negb mbind outcome_bind app].
  destruct (declared_columns dest) as [|x xs] eqn:Ed.
  - cbn [length Nat.ltb Nat.leb app]. f_equal.
    rewrite <- (sqlselect_tail c dest "*"); [reflexivity|].
    unfold projection_spec. by rewrite E, Ed.
  - cbn [length Nat.ltb Nat.leb app]. f_equal.
    rewrite <- (sqlselect_tail c dest (sqljoin (x :: xs) SeqComma)); [reflexivity|].
    unfold projection_spec. rewrite E, Ed. apply sqljoin_concat.
Qed.

Lemma sqlselect_limit_zero (c : Context) (dest : Dest) (offset : Z) :
  ctx_limit c = 0 -> sqlselect (Offset offset c) dest = sqlselect c dest.
Proof.
  intros E. unfold sqlselect. cbn [Offset ctx_what ctx_name ctx_wheres ctx_group
    ctx_having ctx_order ctx_limit ctx_offset ctx_lockS ctx_lockX].
  rewrite E. reflexivity.
Qed.

(** C4 (as amended). When the projection is non-empty, or the destination is
    a pointer to a struct or to a slice of structs, the assembled statement
    is the join, with single spaces and in this order, of "select", the
    projection (the explicit one, else the destination's tag-declared
    columns, else "*"), "from <table>", and the optional clauses where,
    group by, having, order by, "limit <offset>, <limit>" (present exactly
    when limit is not 0), "lock in share mode" (shared flag) and
    "for update" (exclusive flag); with limit 0 the offset has no effect on
    the statement. *)
Theorem sqlselect_assembly (c : Context) (dest : Dest) :
  ctx_what c <> [] \/ struct_dest dest = true ->
  sqlselect c dest = Done (select_spec c dest)
  /\ (ctx_limit c = 0 ->
      forall offset, sqlselect (Offset offset c) dest = sqlselect c dest).
Proof.
  intros Hdom. split.
  - destruct (ctx_what c) as [|x xs] eqn:E.
    + destruct Hdom as [Hw|Hd]; [done|]. by apply sqlselect_struct.
    + apply sqlselect_what. by rewrite E.
  - intros Hl offset. by apply sqlselect_limit_zero.
Qed.

(** TestLimit's builder chain with an exclusive lock, on [&[]LittleOrm]. *)
Lemma sqlselect_assembly_witness :
  let c := LockX (Limit 2 (Offset 1
             (WhereIn "id" [AInt 1; AInt 2; AInt 3]
                (Name "little_orm" allocateContext)))) in
  let dest := Some (TPtr (TSlice LittleOrm)) in
  struct_dest dest = true
  /\ sqlselect c dest
     = Done ("select id, name, age, created_at, updated_at from little_orm "
             +:+ "where id in (?, ?, ?) limit 1, 2 for update").
Proof.
  intros c dest. split; [reflexivity|].
  exact (proj1 (sqlselect_assembly c dest (or_intror eq_refl))).
Defined.

(** C4 fails as stated: with an empty projection and a destination that is a
    pointer to an integer (the destination of TestFindOneCount), there are
    no tag-declared columns, so the statement claimed is
    "select * from little_orm"; the code panics in [decodetags] instead and
    assembles nothing. *)
Lemma sqlselect_scalar_dest_panics :
  let c := Name "little_orm" allocateContext in
  let dest := Some (TPtr (TBasic "int64")) in
  select_spec c dest = "select * from little_orm"
  /\ sqlselect c dest = Panics PanicReflect
  /\ sqlselect c dest <> Done (select_spec c dest).
Proof. repeat split. discriminate. Qed.

(** ** What the terminal operations send to the driver *)

Lemma lookup_modify_eq (p : addr) (f : Context -> Context) (w : World) :
  heap (modify p f w) !! p = f <$> heap w !! p.
Proof. apply list_lookup_alter_eq. Qed.

Lemma exec_spec (drv : Driver) (p : addr) (query : string) (args : list any)
    (w : World) (c : Context) :
  heap w !! p = Some c ->
  exec drv p query args w
  = (Done (ExecContext drv (calls w) (ctx_tx c) query args),
     pool_Put p (log_call (CExec (ctx_tx c) query args) w)).
Proof. intros H. unfold exec. by rewrite H. Qed.

(** C3. Update(sqlset, args...) on a context with bound parameters P makes
    one call on the driver: the statement
    "update <table> set <sqlset> <where>" with the parameter list args
    followed by P. *)
Theorem Update_params_order (drv : Driver) (p : addr) (sqlset : string)
    (args : list any) (w : World) (c : Context) :
  heap w !! p = Some c ->
  calls (snd (Update drv p sqlset args w))
  = calls w ++
    [CExec (ctx_tx c)
       ("update " +:+ ctx_name c +:+ " set " +:+ sqlset +:+ " "
        +:+ sqlwhere (ctx_wheres c) Grouping)
       (args ++ ctx_args c)].
Proof.
  intros H. unfold Update. rewrite H.
  rewrite (exec_spec drv p _ _ w c H). reflexivity.
Qed.

(** Update("age=age+?", 5) after Where("id=?", 1): parameters [5, 1]. *)
Lemma Update_params_order_witness :
  let w := mkWorld [Where "id=?" [AInt 1] (Name "little_orm" allocateContext)]
             [] [] [] in
  calls (snd (Update drv_ok 0%nat "age=age+?" [AInt 5] w))
  = [CExec None "update little_orm set age=age+? where id=?" [AInt 5; AInt 1]].
Proof.
  exact (Update_params_order drv_ok 0%nat "age=age+?" [AInt 5]
           (mkWorld [Where "id=?" [AInt 1] (Name "little_orm" allocateContext)]
              [] [] [])
           _ eq_refl).
Defined.

(** ** InsertBatch *)

Lemma insert_marker (i k : nat) :
  <[i:=ParamMarker]> (replicate i ParamMarker ++ replicate (S k) "")
  = replicate (S i) ParamMarker ++ replicate k "".
Proof.
  rewrite insert_app_r_alt by (rewrite length_replicate; lia).
  rewrite length_replicate, Nat.sub_diag.
  change (<[0%nat:=ParamMarker]> (replicate (S k) ""))
    with ([ParamMarker] ++ replicate k "").
  rewrite (replicate_S_end i), <- app_assoc. reflexivity.
Qed.

Lemma InsertBatch_item_spec (item : list any) (i : nat) (params : list any) :
  InsertBatch_item item i
    (replicate i ParamMarker ++ replicate (length item) "") params
  = (replicate (i + length item) ParamMarker, params ++ item).
Proof.
  revert i params. induction item as [|v item IH]; intros i params.
  - cbn [InsertBatch_item length replicate].
    by rewrite Nat.add_0_r, !app_nil_r.
  - cbn [InsertBatch_item length]. rewrite insert_marker, IH.
    f_equal; [f_equal; lia|]. by rewrite <- app_assoc.
Qed.

Lemma InsertBatch_rows_spec (data : list (list any)) (params : list any)
    (values : list string) :
  InsertBatch_rows data params values
  = (params ++ concat data, values ++ map value_group data).
Proof.
  revert params values. induction data as [|item data IH]; intros params values.
  - cbn [InsertBatch_rows concat map]. by rewrite !app_nil_r.
  - cbn [InsertBatch_rows].
    pose proof (InsertBatch_item_spec item 0 params) as Hitem.
    cbn [replicate app Nat.add] in Hitem. rewrite Hitem.
    rewrite IH, sqljoin_concat. cbn [concat map].
    by rewrite <- !app_assoc.
Qed.

(** C7. InsertBatch(fields, rows...) makes one call on the driver: the
    statement "insert into <table> (<fields joined with ", ">) values "
    followed by one value group per row joined with ", ", each group having
    one "?" per element of its row; and the parameter list is the rows
    concatenated in order. *)
Theorem InsertBatch_statement (drv : Driver) (p : addr) (fields : list string)
    (data : list (list any)) (w : World) (c : Context) :
  heap w !! p = Some c ->
  calls (snd (InsertBatch drv p fields data w))
  = calls w ++
    [CExec (ctx_tx c)
       ("insert into " +:+ ctx_name c +:+ " (" +:+ String.concat ", " fields
        +:+ ") values " +:+ String.concat ", " (map value_group data))
       (concat data)].
Proof.
  intros H. unfold InsertBatch.
  rewrite InsertBatch_rows_spec, H. cbn [app].
  rewrite (exec_spec drv p _ _ w c H), !sqljoin_concat. reflexivity.
Qed.

(** InsertBatch(["name","age"], [["a",1],["b",2]]): two value groups and
    the parameters ["a",1,"b",2]. *)
Lemma InsertBatch_statement_witness :
  let w := mkWorld [Name "little_orm" allocateContext] [] [] [] in
  calls (snd (InsertBatch drv_ok 0%nat ["name"; "age"]
                [[AStr "a"; AInt 1]; [AStr "b"; AInt 2]] w))
  = [CExec None "insert into little_orm (name, age) values (?, ?), (?, ?)"
       [AStr "a"; AInt 1; AStr "b"; AInt 2]].
Proof.
  exact (InsertBatch_statement drv_ok 0%nat ["name"; "age"]
           [[AStr "a"; AInt 1]; [AStr "b"; AInt 2]]
           (mkWorld [Name "little_orm" allocateContext] [] [] [])
           _ eq_refl).
Defined.

(** ** Having *)

Lemma modify_modify (p : addr) (f g : Context -> Context) (w : World) :
  modify p g (modify p f w) = modify p (g ∘ f) w.
Proof.
  unfold modify, set_heap. cbn [heap idle picks calls].
  by rewrite list_alter_alter_eq.
Qed.

Lemma find_many_sends (drv : Driver) (p : addr) (dest : Dest) (w : World)
    (c : Context) (s : string) :
  heap w !! p = Some c -> ctx_sql c = "" -> sqlselect c dest = Done s ->
  calls (snd (FindMany drv p dest w))
  = calls w ++ [CSelect (ctx_tx c) dest s (ctx_args c)].
Proof.
  intros H Hsql Hs. unfold FindMany, find. rewrite H, Hsql, Hs. reflexivity.
Qed.

(** C10. After Having(h1, a1...) and then Having(h2, a2...) on a context,
    the having expression is h2 and the select statement is the one
    assembled as if only the second call had been made, while the bound
    parameters are the earlier ones followed by a1 and then a2: FindMany
    sends that statement with those parameters to the driver. *)
Theorem Having_twice (drv : Driver) (p : addr) (dest : Dest) (w : World)
    (c : Context) (h1 h2 : string) (a1 a2 : list any) (s : string) :
  heap w !! p = Some c ->
  ctx_sql c = "" ->
  sqlselect (Having h2 a2 c) dest = Done s ->
  let c2 := Having h2 a2 (Having h1 a1 c) in
  let w2 := modify p (Having h2 a2) (modify p (Having h1 a1) w) in
  heap w2 !! p = Some c2
  /\ ctx_having c2 = h2
  /\ ctx_args c2 = ctx_args c ++ a1 ++ a2
  /\ sqlselect c2 dest = Done s
  /\ calls (snd (FindMany drv p dest w2))
     = calls w ++ [CSelect (ctx_tx c) dest s (ctx_args c ++ a1 ++ a2)].
Proof.
  intros H Hsql Hs c2 w2.
  assert (H2 : heap w2 !! p = Some c2).
  { unfold w2. rewrite modify_modify, lookup_modify_eq, H. reflexivity. }
  assert (Ha : ctx_args c2 = ctx_args c ++ a1 ++ a2).
  { unfold c2. cbn [Having ctx_args]. by rewrite <- app_assoc. }
  assert (Hs2 : sqlselect c2 dest = Done s) by exact Hs.
  repeat split; try assumption.
  rewrite (find_many_sends drv p dest w2 c2 s H2 Hsql Hs2), Ha. reflexivity.
Qed.

(** TestGroupHaving's chain with a second Having call. *)
Lemma Having_twice_witness :
  let c := Group "name" (What ["sum(age) as age"]
             (Name "little_orm" allocateContext)) in
  let w := mkWorld [c] [] [] [] in
  let w2 := modify 0%nat (Having "age < ?" [AInt 90])
              (modify 0%nat (Having "age > ?" [AInt 18]) w) in
  calls (snd (FindMany drv_ok 0%nat (Some (TPtr (TSlice (TBasic "int8")))) w2))
  = [CSelect None (Some (TPtr (TSlice (TBasic "int8"))))
       "select sum(age) as age from little_orm group by name having age < ?"
       [AInt 18; AInt 90]].
Proof.
  intros c w w2.
  exact (proj2 (proj2 (proj2 (proj2
    (Having_twice drv_ok 0%nat (Some (TPtr (TSlice (TBasic "int8")))) w c
       "age > ?" "age < ?" [AInt 18] [AInt 90] _ eq_refl eq_refl eq_refl))))).
Defined.

(** ** The selector of find *)

Lemma decodetags_panic (dest : Dest) (q : panic) :
  decodetags dest = Panics q -> q = PanicReflect.
Proof.
  unfold decodetags. destruct dest as [ty|]; [|congruence].
  destruct ty as [| e | e | ? e | ? e | e |]; cbn [Type_Elem mbind outcome_bind];
    try congruence;
    (destruct (is_Slice e) eqn:Es;
     [destruct e; try discriminate Es; cbn [Type_Elem mbind outcome_bind];
      match goal with |- context [match ?b with TBasic _ => _ | _ => _ end] =>
        destruct b end; congruence
     |cbn [mbind outcome_bind]; destruct e; congruence]).
Qed.

Lemma sqlselect_panic (c : Context) (dest : Dest) (q : panic) :
  sqlselect c dest = Panics q -> q = PanicReflect.
Proof.
  unfold sqlselect. destruct (ctx_what c) as [|x xs].
  - cbn [length Nat.eqb negb]. destruct (decodetags dest) as [cols|q'] eqn:E.
    + cbn [mbind outcome_bind]. destruct (0 <? length cols)%nat; discriminate.
    + cbn [mbind outcome_bind]. intros [= <-]. by apply (decodetags_panic dest).
  - cbn [length Nat.eqb negb mbind outcome_bind]. discriminate.
Qed.

Lemma find_known_selector (drv : Driver) (p : addr) (dest : Dest)
    (selectType : Z) (w : World) :
  selectType = SelectTypeOne \/ selectType = SelectTypeMany ->
  fst (find drv p dest selectType w) <> Panics PanicSelectType.
Proof.
  intros Hsel. unfold find. destruct (heap w !! p) as [c|]; [|discriminate].
  destruct (String.eqb (ctx_sql c) "").
  - destruct (sqlselect c dest) as [s|q] eqn:E.
    + destruct Hsel as [-> | ->]; discriminate.
    + apply sqlselect_panic in E as ->. discriminate.
  - destruct Hsel as [-> | ->]; discriminate.
Qed.

Lemma find_unknown_selector (drv : Driver) (p : addr) (dest : Dest)
    (selectType : Z) (w : World) (c : Context) :
  selectType <> SelectTypeOne -> selectType <> SelectTypeMany ->
  heap w !! p = Some c ->
  (exists q, fst (find drv p dest selectType w) = Panics q)
  /\ calls (snd (find drv p dest selectType w)) = calls w
  /\ (ctx_sql c <> "" \/ (exists s, sqlselect c dest = Done s) ->
      fst (find drv p dest selectType w) = Panics PanicSelectType).
Proof.
  intros H1 H2 H. unfold find. rewrite H.
  apply Z.eqb_neq in H1 as E1. apply Z.eqb_neq in H2 as E2.
  destruct (String.eqb_spec (ctx_sql c) "") as [Es|Es].
  - destruct (sqlselect c dest) as [s|q] eqn:E.
    + rewrite E1, E2. cbn. eauto.
    + cbn. split; [eauto|]. split; [reflexivity|].
      intros [?|[s ?]]; [done|discriminate].
  - rewrite E1, E2. cbn. eauto.
Qed.

(** C9. FindOne and FindMany call find with the selectors SelectTypeOne and
    SelectTypeMany, and so do Get and Select: none of them ever ends in the
    "select type err" panic. For any other selector find does not return an
    error: it panics, without a call on the driver, and the panic is
    "select type err" whenever the statement is given or can be
    assembled. *)
Theorem find_selector_known (drv : Driver) (p : addr) (dest : Dest) (w : World) :
  FindOne drv p dest w = find drv p dest SelectTypeOne w
  /\ FindMany drv p dest w = find drv p dest SelectTypeMany w
  /\ fst (FindOne drv p dest w) <> Panics PanicSelectType
  /\ fst (FindMany drv p dest w) <> Panics PanicSelectType
  /\ (forall sql args,
        fst (Get drv p dest sql args w) <> Panics PanicSelectType
        /\ fst (Select drv p dest sql args w) <> Panics PanicSelectType)
  /\ (forall selectType c,
        selectType <> SelectTypeOne -> selectType <> SelectTypeMany ->
        heap w !! p = Some c ->
        (exists q, fst (find drv p dest selectType w) = Panics q)
        /\ calls (snd (find drv p dest selectType w)) = calls w
        /\ (ctx_sql c <> "" \/ (exists s, sqlselect c dest = Done s) ->
            fst (find drv p dest selectType w) = Panics PanicSelectType)).
Proof.
  split; [reflexivity|]. split; [reflexivity|].
  split; [apply find_known_selector; by left|].
  split; [apply find_known_selector; by right|].
  split.
  - intros sql args. split; apply find_known_selector; [by left|by right].
  - intros selectType c. apply find_unknown_selector.
Qed.

(** A selector that is neither constant, on a context ready for FindMany. *)
Lemma find_selector_known_witness :
  let w := mkWorld [Name "little_orm" allocateContext] [] [] [] in
  let dest := Some (TPtr (TSlice LittleOrm)) in
  fst (find drv_ok 0%nat dest 2 w) = Panics PanicSelectType.
Proof.
  intros w dest.
  destruct (find_selector_known drv_ok 0%nat dest w) as (_ & _ & _ & _ & _ & Hunk).
  destruct (Hunk 2 (Name "little_orm" allocateContext)) as (_ & _ & Hpanic);
    [discriminate | discriminate | reflexivity |].
  apply Hpanic. right. eexists. reflexivity.
Defined.

(** ** The pool: release by the terminal operations, reset on Acquire *)

Lemma reset_zero_state (c : Context) : zero_state (reset c).
Proof. repeat split. Qed.

Lemma released_modify (p q : addr) (f : Context -> Context) (w w1 : World) :
  released p (modify q f w) w1 -> released p w w1.
Proof.
  intros (Hi & Hl & Hp). unfold modify in *. cbn [set_heap idle heap picks] in *.
  rewrite length_alter in Hl. by repeat split.
Qed.

Lemma exec_released (drv : Driver) (p : addr) (query : string)
    (args : list any) (w : World) (c : Context) :
  heap w !! p = Some c -> released p w (snd (exec drv p query args w)).
Proof. intros H. rewrite (exec_spec drv p query args w c H). by repeat split. Qed.

Lemma find_released (drv : Driver) (p : addr) (dest : Dest) (selectType : Z)
    (w : World) (c : Context) :
  heap w !! p = Some c -> released p w (snd (find drv p dest selectType w)).
Proof.
  intros H. unfold find. rewrite H.
  destruct (String.eqb (ctx_sql c) "").
  - destruct (sqlselect c dest) as [s|q].
    + apply (released_modify p p (set_sql s)).
      destruct (selectType =? SelectTypeOne);
        [|destruct (selectType =? SelectTypeMany)]; by repeat split.
    + by repeat split.
  - destruct (selectType =? SelectTypeOne);
      [|destruct (selectType =? SelectTypeMany)]; by repeat split.
Qed.

Lemma snd_rows_of {A B C : Type} (x : A * C) (f : A -> B) :
  snd (let '(r, w) := x in (f r, w)) = snd x.
Proof. by destruct x. Qed.

Lemma run_terminal_released (drv : Driver) (op : terminal) (p : addr)
    (w : World) (c : Context) :
  heap w !! p = Some c -> released p w (snd (run_terminal drv op p w)).
Proof.
  intros H. destruct op; cbn [run_terminal]; rewrite snd_rows_of.
  - by apply (find_released drv p dest _ w c).
  - by apply (find_released drv p dest _ w c).
  - unfold Insert. destruct (Insert_loop data [] []) as [fields params].
    unfold InsertBatch. destruct (InsertBatch_rows [params] [] []) as [ps vs].
    rewrite H. by apply (exec_released drv p _ _ w c).
  - unfold InsertBatch. destruct (InsertBatch_rows data [] []) as [ps vs].
    rewrite H. by apply (exec_released drv p _ _ w c).
  - unfold Update. rewrite H, snd_rows_of. by apply (exec_released drv p _ _ w c).
  - unfold UpdateMap. destruct (UpdateMap_loop args [] []) as [ps sets].
    unfold Update. rewrite H, snd_rows_of. by apply (exec_released drv p _ _ w c).
  - unfold Delete. rewrite H, snd_rows_of. by apply (exec_released drv p _ _ w c).
  - unfold Select.
    apply (released_modify p p (set_sql sql)), (released_modify p p (set_args args)).
    apply (find_released drv p dest _ _ (set_args args (set_sql sql c))).
    by rewrite !lookup_modify_eq, H.
  - unfold Get.
    apply (released_modify p p (set_sql sql)), (released_modify p p (set_args args)).
    apply (find_released drv p dest _ _ (set_args args (set_sql sql c))).
    by rewrite !lookup_modify_eq, H.
  - by apply (exec_released drv p _ _ w c).
  - by apply (exec_released drv p _ _ w c).
  - unfold Drop. rewrite H. by apply (exec_released drv p _ _ w c).
Qed.

Lemma pool_Get_allocated (w : World) :
  pool_wf w -> (fst (pool_Get w) < length (heap (snd (pool_Get w))))%nat.
Proof.
  intros Hwf. unfold pool_Get, pool_New.
  destruct (picks w) as [|[i|] rest]; cbn [fst snd set_heap set_picks heap].
  - rewrite length_app. cbn [length]. lia.
  - destruct (idle w !! i) as [q|] eqn:E; cbn [fst snd set_heap set_picks set_idle heap].
    + unfold pool_wf in Hwf. rewrite Forall_forall in Hwf.
      apply Hwf. by apply (list_elem_of_lookup_2 _ i).
    + rewrite length_app. cbn [length]. lia.
  - rewrite length_app. cbn [length]. lia.
Qed.

Lemma Acquire_zero_state (w : World) (q : addr) (w2 : World) :
  pool_wf w -> Acquire w = (q, w2) ->
  exists c, heap w2 !! q = Some c /\ zero_state c.
Proof.
  intros Hwf. unfold Acquire.
  pose proof (pool_Get_allocated w Hwf) as Hlt.
  destruct (pool_Get w) as [q' w']. cbn [fst snd] in Hlt. intros [= <- <-].
  apply lookup_lt_is_Some_2 in Hlt as [c Hc].
  exists (reset c). split; [|apply reset_zero_state].
  by rewrite lookup_modify_eq, Hc.
Qed.

Lemma Acquire_picks_head (w : World) (p : addr) (l : list addr)
    (rest : list (option nat)) :
  idle w = p :: l -> picks w = Some 0%nat :: rest -> fst (Acquire w) = p.
Proof.
  intros Hi Hp. unfold Acquire, pool_Get. rewrite Hp, Hi. reflexivity.
Qed.

(** C2. A terminal operation on a checked-out context puts it into the pool
    once, however the operation ends (no error, an error, a panic); and the
    context the next Acquire returns, be it that one or another, is in the
    zero state: the raw SQL, the table name, the group, having and order
    expressions are empty strings, the projection, the filters and the
    bound parameters are empty, limit and offset are 0, there is no
    transaction handle and both lock flags are false. When the pool hands
    out the item put last, it is the released context itself. *)
Theorem reset_round_trip (drv : Driver) (op : terminal) (p : addr) (w : World)
    (c : Context) :
  heap w !! p = Some c ->
  pool_wf w ->
  let w1 := snd (run_terminal drv op p w) in
  idle w1 = p :: idle w
  /\ (forall q w2, Acquire w1 = (q, w2) ->
        (exists c', heap w2 !! q = Some c' /\ zero_state c')
        /\ (forall rest, picks w = Some 0%nat :: rest -> q = p)).
Proof.
  intros H Hwf w1.
  destruct (run_terminal_released drv op p w c H) as (Hi & Hl & Hp).
  fold w1 in Hi, Hl, Hp. split; [exact Hi|].
  assert (Hwf1 : pool_wf w1).
  { unfold pool_wf. rewrite Hi, Hl. constructor; [|exact Hwf].
    by apply lookup_lt_is_Some_1; exists c. }
  intros q w2 HA. split.
  - by apply (Acquire_zero_state w1 q w2).
  - intros rest Hr. rewrite <- Hp in Hr.
    pose proof (Acquire_picks_head w1 p (idle w) rest Hi Hr) as Hq.
    by rewrite HA in Hq.
Qed.

(** FindOne on a context bound to a transaction, with filters, a lock flag
    and no usable destination: the operation panics, the context is in the
    pool all the same, and the next Acquire returns it in the zero state. *)
Lemma reset_round_trip_witness :
  let c := LockX (Where "id=?" [AInt 1]
             (Name "little_orm" (set_tx (Some 7%nat) allocateContext))) in
  let w := mkWorld [c] [] [Some 0%nat] [] in
  let w1 := snd (run_terminal drv_ok (OpFindOne None) 0%nat w) in
  fst (run_terminal drv_ok (OpFindOne None) 0%nat w) = Some (inr PanicReflect)
  /\ idle w1 = [0%nat]
  /\ fst (Acquire w1) = 0%nat
  /\ exists c', heap (snd (Acquire w1)) !! fst (Acquire w1) = Some c'
                /\ zero_state c'.
Proof.
  intros c w w1.
  destruct (reset_round_trip drv_ok (OpFindOne None) 0%nat w c eq_refl
              (Forall_nil_2 _)) as [Hidle Hnext].
  destruct (Hnext _ _ (surjective_pairing (Acquire w1))) as [Hzero Hsame].
  split; [reflexivity|]. split; [exact Hidle|].
  split; [exact (Hsame [] eq_refl)|exact Hzero].
Defined.


(** ** The transaction helper *)

(** C1. WithTx at an input where the code departs from the claim: the
    transaction begins, the unit of work returns no error and Commit returns
    the error "commit failed". The claim has WithTx return that error. The
    deferred function sees a non-nil [err], calls Rollback on the
    transaction that is over, and assigns Rollback's result to [err]:
    WithTx returns [ErrTxDone] and the commit error is lost. The same
    assignment makes WithTx return no error at all when the unit of work
    fails and the rollback succeeds. *)
Lemma WithTx_commit_error_lost :
  Beginx drv_commit_fails [] = (Some 7%nat, None)
  /\ h_ok (Some 7%nat) ANil (log_call CBeginx world0)
     = (Done None, log_call CBeginx world0)
  /\ Commit drv_commit_fails [CBeginx] 7%nat = Some "commit failed"
  /\ fst (WithTx drv_commit_fails h_ok ANil world0) = Done (Some ErrTxDone)
  /\ fst (WithTx drv_commit_fails h_ok ANil world0) <> Done (Some "commit failed")
  /\ calls (snd (WithTx drv_commit_fails h_ok ANil world0))
     = [CBeginx; CCommit 7%nat; CRollback 7%nat]
  /\ WithTx drv_ok h_fails ANil world0
     = (Done None, mkWorld [] [] [] [CBeginx; CRollback 7%nat]).
Proof. repeat split. discriminate. Qed.

(** The courses of WithTx. If beginning the transaction fails, WithTx
    returns that error and calls nothing else: neither the unit of work, nor
    Commit, nor Rollback. If the unit of work returns an error, Rollback is
    called and WithTx returns what Rollback returned, the error of the unit
    of work being dropped. If the unit of work returns no error, Commit is
    called; when Commit succeeds WithTx returns no error; when Commit fails,
    Rollback is called as well and WithTx returns what Rollback returned. *)
Theorem WithTx_protocol (drv : Driver) (h : FuncTx) (args : any) (w : World) :
  (forall tx e,
     Beginx drv (calls w) = (tx, Some e) ->
     WithTx drv h args w = (Done (Some e), log_call CBeginx w))
  /\ (forall t e w',
        Beginx drv (calls w) = (Some t, None) ->
        h (Some t) args (log_call CBeginx w) = (Done (Some e), w') ->
        WithTx drv h args w
        = (Done (Rollback drv (calls w') t), log_call (CRollback t) w'))
  /\ (forall t w',
        Beginx drv (calls w) = (Some t, None) ->
        h (Some t) args (log_call CBeginx w) = (Done None, w') ->
        Commit drv (calls w') t = None ->
        WithTx drv h args w = (Done None, log_call (CCommit t) w'))
  /\ (forall t w' e,
        Beginx drv (calls w) = (Some t, None) ->
        h (Some t) args (log_call CBeginx w) = (Done None, w') ->
        Commit drv (calls w') t = Some e ->
        WithTx drv h args w
        = (Done (Rollback drv (calls w' ++ [CCommit t]) t),
           log_call (CRollback t) (log_call (CCommit t) w'))).
Proof.
  unfold WithTx. repeat split.
  - intros tx e ->. reflexivity.
  - intros t e w' -> ->. reflexivity.
  - intros t w' -> -> Hc. rewrite Hc. reflexivity.
  - intros t w' e -> -> Hc. rewrite Hc. reflexivity.
Qed.

(** The four courses of WithTx: begin fails; the unit of work fails and the
    rollback succeeds, so that WithTx returns no error; all succeeds; commit
    fails and the rollback that follows reports the transaction over. *)
Lemma WithTx_protocol_witness :
  WithTx drv_begin_fails h_ok ANil world0
  = (Done (Some "bad connection"), mkWorld [] [] [] [CBeginx])
  /\ WithTx drv_ok h_fails ANil world0
     = (Done None, mkWorld [] [] [] [CBeginx; CRollback 7%nat])
  /\ WithTx drv_ok h_ok ANil world0
     = (Done None, mkWorld [] [] [] [CBeginx; CCommit 7%nat])
  /\ WithTx drv_commit_fails h_ok ANil world0
     = (Done (Some ErrTxDone),
        mkWorld [] [] [] [CBeginx; CCommit 7%nat; CRollback 7%nat]).
Proof.
  split; [|split; [|split]].
  - exact (proj1 (WithTx_protocol drv_begin_fails h_ok ANil world0)
             None "bad connection" eq_refl).
  - exact (proj1 (proj2 (WithTx_protocol drv_ok h_fails ANil world0))
             7%nat "update row affect error" _ eq_refl eq_refl).
  - exact (proj1 (proj2 (proj2 (WithTx_protocol drv_ok h_ok ANil world0)))
             7%nat _ eq_refl eq_refl eq_refl).
  - exact (proj2 (proj2 (proj2 (WithTx_protocol drv_commit_fails h_ok ANil world0)))
             7%nat _ "commit failed" eq_refl eq_refl eq_refl).
Defined.

(** * Further properties of the package *)

(** ** Insert, UpdateMap, Delete *)

Lemma Insert_loop_spec (data : list (string * any)) (fields : list string)
    (params : list any) :
  Insert_loop data fields params
  = (fields ++ map fst data, params ++ map snd data).
Proof.
  revert fields params. induction data as [|[k v] data IH]; intros fields params.
  - cbn [Insert_loop map]. by rewrite !app_nil_r.
  - cbn [Insert_loop map fst snd]. rewrite IH. by rewrite <- !app_assoc.
Qed.

(** X1. Insert(data) sends one statement with the keys of the map as the
    column list, a single value group with one "?" per key, and the values
    as parameters in the order of their keys. *)
Theorem Insert_statement (drv : Driver) (p : addr) (data : list (string * any))
    (w : World) (c : Context) :
  heap w !! p = Some c ->
  calls (snd (Insert drv p data w))
  = calls w ++
    [CExec (ctx_tx c)
       ("insert into " +:+ ctx_name c +:+ " (" +:+ String.concat ", " (map fst data)
        +:+ ") values (" +:+ String.concat ", " (replicate (length data) "?")
        +:+ ")")
       (map snd data)]
  /\ length (map fst data) = length (map snd data).
Proof.
  intros H. split; [|by rewrite !length_map].
  unfold Insert. rewrite Insert_loop_spec. cbn [app].
  unfold InsertBatch. rewrite InsertBatch_rows_spec, H. cbn [app concat map].
  rewrite (exec_spec drv p _ _ w c H), !sqljoin_concat, app_nil_r.
  unfold value_group. rewrite length_map. reflexivity.
Qed.

(** TestInsert's map, iterated name first. *)
Lemma Insert_statement_witness :
  let w := mkWorld [Name "little_orm" allocateContext] [] [] [] in
  calls (snd (Insert drv_ok 0%nat [("name", AStr "allen"); ("age", AInt 18)] w))
  = [CExec None "insert into little_orm (name, age) values (?, ?)"
       [AStr "allen"; AInt 18]].
Proof.
  intros w.
  exact (proj1 (Insert_statement drv_ok 0%nat
                  [("name", AStr "allen"); ("age", AInt 18)] w _ eq_refl)).
Defined.

Lemma UpdateMap_loop_spec (data : list (string * any)) (params : list any)
    (sets : list string) :
  UpdateMap_loop data params sets
  = (params ++ map snd data, sets ++ map (fun kv => fst kv +:+ "=?") data).
Proof.
  revert params sets. induction data as [|[k v] data IH]; intros params sets.
  - cbn [UpdateMap_loop map]. by rewrite !app_nil_r.
  - cbn [UpdateMap_loop map fst snd]. rewrite IH. by rewrite <- !app_assoc.
Qed.

(** X2. UpdateMap(data) sends "update <table> set k1=?, ..., kn=? <where>"
    with the values of the map, in the order of their keys, followed by the
    parameters bound so far. *)
Theorem UpdateMap_statement (drv : Driver) (p : addr)
    (data : list (string * any)) (w : World) (c : Context) :
  heap w !! p = Some c ->
  calls (snd (UpdateMap drv p data w))
  = calls w ++
    [CExec (ctx_tx c)
       ("update " +:+ ctx_name c +:+ " set "
        +:+ String.concat ", " (map (fun kv => fst kv +:+ "=?") data)
        +:+ " " +:+ sqlwhere (ctx_wheres c) Grouping)
       (map snd data ++ ctx_args c)].
Proof.
  intros H. unfold UpdateMap. rewrite UpdateMap_loop_spec. cbn [app].
  unfold Update. rewrite H, (exec_spec drv p _ _ w c H), sqljoin_concat.
  reflexivity.
Qed.

(** TestUpdateMap's chain. *)
Lemma UpdateMap_statement_witness :
  let w := mkWorld [Where "id=?" [AInt 2] (Name "little_orm" allocateContext)]
             [] [] [] in
  calls (snd (UpdateMap drv_ok 0%nat
                [("name", AStr "allen-updatemap"); ("age", AInt 10)] w))
  = [CExec None "update little_orm set name=?, age=? where id=?"
       [AStr "allen-updatemap"; AInt 10; AInt 2]].
Proof.
  intros w.
  exact (UpdateMap_statement drv_ok 0%nat
           [("name", AStr "allen-updatemap"); ("age", AInt 10)] w _ eq_refl).
Defined.

(** X3. Delete sends "delete from <table> <where>" with the bound
    parameters; on a context without filters the statement has no where
    clause, so that it addresses every row of the table, and the same holds
    for Update. *)
Theorem Delete_statement (drv : Driver) (p : addr) (w : World) (c : Context) :
  heap w !! p = Some c ->
  calls (snd (Delete drv p w))
  = calls w ++
    [CExec (ctx_tx c)
       ("delete from " +:+ ctx_name c +:+ " " +:+ sqlwhere (ctx_wheres c) Grouping)
       (ctx_args c)]
  /\ (ctx_wheres c = [] ->
      calls (snd (Delete drv p w))
      = calls w ++ [CExec (ctx_tx c) ("delete from " +:+ ctx_name c +:+ " ")
                      (ctx_args c)]
      /\ forall sqlset args,
           calls (snd (Update drv p sqlset args w))
           = calls w ++
             [CExec (ctx_tx c)
                ("update " +:+ ctx_name c +:+ " set " +:+ sqlset +:+ " ")
                (args ++ ctx_args c)]).
Proof.
  intros H.
  assert (HD : calls (snd (Delete drv p w))
    = calls w ++
      [CExec (ctx_tx c)
         ("delete from " +:+ ctx_name c +:+ " " +:+ sqlwhere (ctx_wheres c) Grouping)
         (ctx_args c)]).
  { unfold Delete. rewrite H, (exec_spec drv p _ _ w c H). reflexivity. }
  split; [exact HD|]. intros E. split.
  - rewrite HD, E. reflexivity.
  - intros sqlset args. unfold Update.
    rewrite H, (exec_spec drv p _ _ w c H), E. reflexivity.
Qed.

(** Delete on a context with a table name only. *)
Lemma Delete_statement_witness :
  let w := mkWorld [Name "little_orm" allocateContext] [] [] [] in
  calls (snd (Delete drv_ok 0%nat w)) = [CExec None "delete from little_orm " []].
Proof.
  intros w.
  exact (proj1 (proj2 (Delete_statement drv_ok 0%nat w _ eq_refl) eq_refl)).
Defined.

(** X4. When the driver reports an error, Update and Delete return 0 with
    that error and never look at the result; when it reports none, they
    return what RowsAffected of the result returns. *)
Theorem Update_Delete_result (drv : Driver) (p : addr) (sqlset : string)
    (args : list any) (w : World) (c : Context) :
  heap w !! p = Some c ->
  let query := "update " +:+ ctx_name c +:+ " set " +:+ sqlset +:+ " "
               +:+ sqlwhere (ctx_wheres c) Grouping in
  let dquery := "delete from " +:+ ctx_name c +:+ " "
                +:+ sqlwhere (ctx_wheres c) Grouping in
  (forall r e,
     ExecContext drv (calls w) (ctx_tx c) query (args ++ ctx_args c) = (r, Some e) ->
     fst (Update drv p sqlset args w) = Done (0, Some e))
  /\ (forall res,
        ExecContext drv (calls w) (ctx_tx c) query (args ++ ctx_args c)
        = (Some res, None) ->
        fst (Update drv p sqlset args w) = Done (RowsAffected res))
  /\ (forall r e,
        ExecContext drv (calls w) (ctx_tx c) dquery (ctx_args c) = (r, Some e) ->
        fst (Delete drv p w) = Done (0, Some e))
  /\ (forall res,
        ExecContext drv (calls w) (ctx_tx c) dquery (ctx_args c) = (Some res, None) ->
        fst (Delete drv p w) = Done (RowsAffected res)).
Proof.
  intros H query dquery. unfold Update, Delete.
  rewrite H, !(exec_spec drv p _ _ w c H). cbn [fst].
  repeat split; intros; unfold rows_of; cbn [mbind outcome_bind];
    match goal with E : ExecContext _ _ _ _ _ = _ |- _ =>
      fold query dquery in E |- *; rewrite E end; try reflexivity.
  all: by destruct r.
Qed.

(** Update on a database that has lost its connection. *)
Lemma Update_Delete_result_witness :
  let w := mkWorld [Where "id=?" [AInt 2] (Name "little_orm" allocateContext)]
             [] [] [] in
  fst (Update drv_begin_fails 0%nat "age=age+?" [AInt 5] w)
  = Done (0, Some "bad connection").
Proof.
  intros w.
  exact (proj1 (Update_Delete_result drv_begin_fails 0%nat "age=age+?" [AInt 5]
                  w _ eq_refl) None "bad connection" eq_refl).
Defined.

(** ** The read operations and the raw statements *)

Lemma find_given_sql (drv : Driver) (p : addr) (dest : Dest) (selectType : Z)
    (w : World) (c : Context) :
  heap w !! p = Some c -> ctx_sql c <> "" ->
  find drv p dest selectType w
  = if selectType =? SelectTypeOne then
      (Done (GetContext drv (calls w) (ctx_tx c) dest (ctx_sql c) (ctx_args c)),
       pool_Put p (log_call (CGet (ctx_tx c) dest (ctx_sql c) (ctx_args c)) w))
    else if selectType =? SelectTypeMany then
      (Done (SelectContext drv (calls w) (ctx_tx c) dest (ctx_sql c) (ctx_args c)),
       pool_Put p (log_call (CSelect (ctx_tx c) dest (ctx_sql c) (ctx_args c)) w))
    else (Panics PanicSelectType, pool_Put p w).
Proof.
  intros H Hs. unfold find. rewrite H.
  destruct (String.eqb_spec (ctx_sql c) "") as [E|_]; [done|].
  by destruct (selectType =? SelectTypeOne), (selectType =? SelectTypeMany).
Qed.

Lemma find_assembled (drv : Driver) (p : addr) (dest : Dest) (selectType : Z)
    (w : World) (c : Context) (s : string) :
  heap w !! p = Some c -> ctx_sql c = "" -> sqlselect c dest = Done s ->
  find drv p dest selectType w
  = let w1 := modify p (set_sql s) w in
    if selectType =? SelectTypeOne then
      (Done (GetContext drv (calls w) (ctx_tx c) dest s (ctx_args c)),
       pool_Put p (log_call (CGet (ctx_tx c) dest s (ctx_args c)) w1))
    else if selectType =? SelectTypeMany then
      (Done (SelectContext drv (calls w) (ctx_tx c) dest s (ctx_args c)),
       pool_Put p (log_call (CSelect (ctx_tx c) dest s (ctx_args c)) w1))
    else (Panics PanicSelectType, pool_Put p w1).
Proof.
  intros H Hs Hd. unfold find. rewrite H, Hs, Hd. cbn [String.eqb].
  by destruct (selectType =? SelectTypeOne), (selectType =? SelectTypeMany).
Qed.

Lemma find_assembly_panics (drv : Driver) (p : addr) (dest : Dest)
    (selectType : Z) (w : World) (c : Context) (q : panic) :
  heap w !! p = Some c -> ctx_sql c = "" -> sqlselect c dest = Panics q ->
  find drv p dest selectType w = (Panics q, pool_Put p w).
Proof. intros H Hs Hd. unfold find. by rewrite H, Hs, Hd. Qed.

(** X5. On a context without a raw statement, FindOne assembles the select
    statement, stores it in the context, sends it with the bound parameters
    through GetContext and returns the driver's answer as it is; FindMany
    does the same through SelectContext. When the assembly panics, nothing
    is sent and the panic is the result. *)
Theorem FindOne_FindMany_send (drv : Driver) (p : addr) (dest : Dest)
    (w : World) (c : Context) :
  heap w !! p = Some c -> ctx_sql c = "" ->
  (forall s, sqlselect c dest = Done s ->
     fst (FindOne drv p dest w)
       = Done (GetContext drv (calls w) (ctx_tx c) dest s (ctx_args c))
     /\ calls (snd (FindOne drv p dest w))
        = calls w ++ [CGet (ctx_tx c) dest s (ctx_args c)]
     /\ heap (snd (FindOne drv p dest w)) !! p = Some (set_sql s c)
     /\ fst (FindMany drv p dest w)
        = Done (SelectContext drv (calls w) (ctx_tx c) dest s (ctx_args c))
     /\ calls (snd (FindMany drv p dest w))
        = calls w ++ [CSelect (ctx_tx c) dest s (ctx_args c)]
     /\ heap (snd (FindMany drv p dest w)) !! p = Some (set_sql s c))
  /\ (forall q, sqlselect c dest = Panics q ->
        fst (FindOne drv p dest w) = Panics q
        /\ calls (snd (FindOne drv p dest w)) = calls w
        /\ fst (FindMany drv p dest w) = Panics q
        /\ calls (snd (FindMany drv p dest w)) = calls w).
Proof.
  intros H Hs. split.
  - intros s Hd. unfold FindOne, FindMany.
    rewrite !(find_assembled drv p dest _ w c s H Hs Hd).
    cbn [Z.eqb Pos.eqb SelectTypeOne SelectTypeMany fst snd pool_Put log_call
         set_idle heap calls idle picks modify set_heap].
    rewrite list_lookup_alter_eq, H. by repeat split.
  - intros q Hd. unfold FindOne, FindMany.
    rewrite !(find_assembly_panics drv p dest _ w c q H Hs Hd). by repeat split.
Qed.

(** TestFindWithoutWhat's chain, in a transaction and with a lock. *)
Lemma FindOne_FindMany_send_witness :
  let c := LockX (Where "id=?" [AInt 1]
             (Name "little_orm" (set_tx (Some 7%nat) allocateContext))) in
  let w := mkWorld [c] [] [] [] in
  calls (snd (FindOne drv_ok 0%nat (Some (TPtr LittleOrm)) w))
  = [CGet (Some 7%nat) (Some (TPtr LittleOrm))
       ("select id, name, age, created_at, updated_at from little_orm "
        +:+ "where id=? for update")
       [AInt 1]].
Proof.
  intros c w.
  exact (proj1 (proj2 (proj1 (FindOne_FindMany_send drv_ok 0%nat
           (Some (TPtr LittleOrm)) w c eq_refl eq_refl) _ eq_refl))).
Defined.

(** X6. Select and Get with a non-empty statement send that statement and
    those parameters as they are, whatever has been configured on the
    context: filters, projection and the parameters bound before play no
    role. With the empty statement they do not send it: the statement is
    assembled from the context as for FindMany and FindOne, with the given
    parameters in place of the bound ones. *)
Theorem Select_Get_raw (drv : Driver) (p : addr) (dest : Dest) (sql : string)
    (args : list any) (w : World) (c : Context) :
  heap w !! p = Some c ->
  (sql <> "" ->
   calls (snd (Select drv p dest sql args w))
     = calls w ++ [CSelect (ctx_tx c) dest sql args]
   /\ calls (snd (Get drv p dest sql args w))
      = calls w ++ [CGet (ctx_tx c) dest sql args])
  /\ (forall s, sql = "" -> sqlselect c dest = Done s ->
      calls (snd (Select drv p dest sql args w))
        = calls w ++ [CSelect (ctx_tx c) dest s args]
      /\ calls (snd (Get drv p dest sql args w))
         = calls w ++ [CGet (ctx_tx c) dest s args]).
Proof.
  intros H.
  assert (H2 : heap (modify p (set_args args) (modify p (set_sql sql) w)) !! p
               = Some (set_args args (set_sql sql c))).
  { by rewrite !lookup_modify_eq, H. }
  split.
  - intros Hs. unfold Select, Get.
    rewrite !(find_given_sql drv p dest _ _ _ H2 Hs). by split.
  - intros s -> Hd. unfold Select, Get.
    rewrite !(find_assembled drv p dest _ _ _ s H2 eq_refl Hd). by split.
Qed.

(** TestGet's statement on a context that has been configured as well. *)
Lemma Select_Get_raw_witness :
  let c := Where "id=?" [AInt 9] (Name "other" allocateContext) in
  let w := mkWorld [c] [] [] [] in
  calls (snd (Get drv_ok 0%nat (Some (TPtr LittleOrm))
                "select * from little_orm where id=?" [AInt 1] w))
  = [CGet None (Some (TPtr LittleOrm)) "select * from little_orm where id=?"
       [AInt 1]]
  /\ calls (snd (Select drv_ok 0%nat (Some (TPtr (TSlice LittleOrm))) "" [AInt 1] w))
     = [CSelect None (Some (TPtr (TSlice LittleOrm)))
          "select id, name, age, created_at, updated_at from other where id=?"
          [AInt 1]].
Proof.
  intros c w. split.
  - refine (proj2 (proj1 (Select_Get_raw drv_ok 0%nat (Some (TPtr LittleOrm))
             "select * from little_orm where id=?" [AInt 1] w c eq_refl) _)).
    discriminate.
  - exact (proj1 (proj2 (Select_Get_raw drv_ok 0%nat (Some (TPtr (TSlice LittleOrm)))
             "" [AInt 1] w c eq_refl) _ eq_refl eq_refl)).
Defined.

(** ** Which statements reach the driver, and where *)

Lemma find_one_call (drv : Driver) (p : addr) (dest : Dest) (selectType : Z)
    (w : World) (c : Context) :
  heap w !! p = Some c ->
  one_call_on (ctx_tx c) (calls w)
    (ending_err (fst (find drv p dest selectType w)))
    (calls (snd (find drv p dest selectType w))).
Proof.
  intros H. unfold find, one_call_on. rewrite H.
  destruct (String.eqb (ctx_sql c) "").
  - destruct (sqlselect c dest) as [s|q].
    + destruct (selectType =? SelectTypeOne);
        [|destruct (selectType =? SelectTypeMany)]; cbn; eauto.
    + cbn. eauto.
  - destruct (selectType =? SelectTypeOne);
      [|destruct (selectType =? SelectTypeMany)]; cbn; eauto.
Qed.

Lemma exec_one_call (drv : Driver) (p : addr) (query : string)
    (args : list any) (w : World) (c : Context) (e : ending) :
  heap w !! p = Some c ->
  one_call_on (ctx_tx c) (calls w) e (calls (snd (exec drv p query args w))).
Proof.
  intros H. rewrite (exec_spec drv p query args w c H). right.
  eexists. split; reflexivity.
Qed.

Lemma fst_ending {A B C : Type} (x : A * C) (f : A -> B) :
  fst (let '(r, w) := x in (f r, w)) = f (fst x).
Proof. by destruct x. Qed.

Lemma run_terminal_one_call (drv : Driver) (op : terminal) (p : addr)
    (w : World) (c : Context) :
  heap w !! p = Some c ->
  one_call_on (ctx_tx c) (calls w)
    (fst (run_terminal drv op p w)) (calls (snd (run_terminal drv op p w))).
Proof.
  intros H. destruct op; cbn [run_terminal]; rewrite snd_rows_of, fst_ending.
  - by apply find_one_call.
  - by apply find_one_call.
  - unfold Insert. destruct (Insert_loop data [] []) as [fields params].
    unfold InsertBatch. destruct (InsertBatch_rows [params] [] []) as [ps vs].
    rewrite H. by apply exec_one_call.
  - unfold InsertBatch. destruct (InsertBatch_rows data [] []) as [ps vs].
    rewrite H. by apply exec_one_call.
  - unfold Update. rewrite H, snd_rows_of. by apply exec_one_call.
  - unfold UpdateMap. destruct (UpdateMap_loop args [] []) as [ps sets].
    unfold Update. rewrite H, snd_rows_of. by apply exec_one_call.
  - unfold Delete. rewrite H, snd_rows_of. by apply exec_one_call.
  - unfold Select.
    assert (H2 : heap (modify p (set_args args) (modify p (set_sql sql) w)) !! p
                 = Some (set_args args (set_sql sql c)))
      by (by rewrite !lookup_modify_eq, H).
    exact (find_one_call drv p dest _ _ _ H2).
  - unfold Get.
    assert (H2 : heap (modify p (set_args args) (modify p (set_sql sql) w)) !! p
                 = Some (set_args args (set_sql sql c)))
      by (by rewrite !lookup_modify_eq, H).
    exact (find_one_call drv p dest _ _ _ H2).
  - by apply exec_one_call.
  - by apply exec_one_call.
  - unfold Drop. rewrite H. by apply exec_one_call.
Qed.

Lemma configure_tx (k : config) (c : Context) : ctx_tx (configure k c) = ctx_tx c.
Proof. by destruct k. Qed.

Lemma configure_all_tx (ks : list config) (c : Context) :
  ctx_tx (configure_all ks c) = ctx_tx c.
Proof.
  revert c. induction ks as [|k ks IH]; intros c; [reflexivity|].
  unfold configure_all in *. cbn [fold_left]. by rewrite IH, configure_tx.
Qed.

Lemma Acquire_fresh_context (w : World) :
  pool_wf w ->
  heap (snd (Acquire w)) !! fst (Acquire w) = Some allocateContext
  /\ calls (snd (Acquire w)) = calls w.
Proof.
  intros Hwf. unfold Acquire.
  pose proof (pool_Get_allocated w Hwf) as Hlt.
  assert (Hc : calls (snd (pool_Get w)) = calls w).
  { unfold pool_Get, pool_New.
    destruct (picks w) as [|[i|] rest]; [done| |done].
    by destruct (idle w !! i). }
  destruct (pool_Get w) as [q w']. cbn [fst snd] in *.
  apply lookup_lt_is_Some_2 in Hlt as [c Hq].
  split; [|exact Hc]. by rewrite lookup_modify_eq, Hq.
Qed.

(** X7. A context obtained with AcquireTx(tx) and configured by any chain
    of configuration calls still carries tx, and the terminal operation run
    on it makes at most one call on the driver: none when it panics before
    the call, else exactly one, on the transaction tx (on the DB itself
    when tx is nil). The same holds with no transaction for a context
    obtained with Acquire. *)
Theorem AcquireTx_calls_on_tx (drv : Driver) (tx : option Tx)
    (ks : list config) (op : terminal) (w : World) :
  pool_wf w ->
  (let p := fst (AcquireTx tx w) in
   let w2 := modify p (configure_all ks) (snd (AcquireTx tx w)) in
   heap w2 !! p = Some (configure_all ks (set_tx tx allocateContext))
   /\ one_call_on tx (calls w)
        (fst (run_terminal drv op p w2)) (calls (snd (run_terminal drv op p w2))))
  /\ (let p := fst (Acquire w) in
      let w2 := modify p (configure_all ks) (snd (Acquire w)) in
      heap w2 !! p = Some (configure_all ks allocateContext)
      /\ one_call_on None (calls w)
           (fst (run_terminal drv op p w2)) (calls (snd (run_terminal drv op p w2)))).
Proof.
  intros Hwf. destruct (Acquire_fresh_context w Hwf) as [Hq Hc]. split.
  - intros p w2.
    assert (HA : AcquireTx tx w
                 = (fst (Acquire w), modify (fst (Acquire w)) (set_tx tx) (snd (Acquire w)))).
    { unfold AcquireTx. by destruct (Acquire w). }
    assert (H2 : heap w2 !! p = Some (configure_all ks (set_tx tx allocateContext))).
    { unfold w2, p. rewrite HA. cbn [fst snd]. by rewrite !lookup_modify_eq, Hq. }
    split; [exact H2|].
    pose proof (run_terminal_one_call drv op p w2 _ H2) as Hone.
    rewrite configure_all_tx in Hone.
    assert (Hcw : calls w2 = calls w)
      by (unfold w2; rewrite HA; cbn [snd]; exact Hc).
    by rewrite Hcw in Hone.
  - intros p w2.
    assert (H2 : heap w2 !! p = Some (configure_all ks allocateContext)).
    { unfold w2, p. by rewrite lookup_modify_eq, Hq. }
    split; [exact H2|].
    pose proof (run_terminal_one_call drv op p w2 _ H2) as Hone.
    rewrite configure_all_tx in Hone.
    assert (Hcw : calls w2 = calls w) by exact Hc.
    by rewrite Hcw in Hone.
Qed.

(** The second statement of the README's [updateAge]. *)
Lemma AcquireTx_calls_on_tx_witness :
  let p := fst (AcquireTx (Some 7%nat) world0) in
  let w2 := modify p (configure_all [CfgName "little_orm"; CfgWhere "id=?" [AInt 1]])
              (snd (AcquireTx (Some 7%nat) world0)) in
  one_call_on (Some 7%nat) []
    (fst (run_terminal drv_ok (OpUpdate "age=age+?" [AInt 100]) p w2))
    (calls (snd (run_terminal drv_ok (OpUpdate "age=age+?" [AInt 100]) p w2))).
Proof.
  intros p w2.
  exact (proj2 (proj1 (AcquireTx_calls_on_tx drv_ok (Some 7%nat)
           [CfgName "little_orm"; CfgWhere "id=?" [AInt 1]]
           (OpUpdate "age=age+?" [AInt 100]) world0 (Forall_nil_2 _)))).
Defined.

(** ** What a release leaves in the pool *)

Lemma same_configuration_refl (c : Context) : same_configuration c c.
Proof. by repeat split. Qed.

Lemma find_heap (drv : Driver) (p : addr) (dest : Dest) (selectType : Z)
    (w : World) (c : Context) :
  heap w !! p = Some c ->
  (exists c1, heap (snd (find drv p dest selectType w)) !! p = Some c1
              /\ same_configuration c c1 /\ ctx_args c1 = ctx_args c)
  /\ (forall q, q <> p ->
        heap (snd (find drv p dest selectType w)) !! q = heap w !! q).
Proof.
  intros H. unfold find. rewrite H.
  destruct (String.eqb (ctx_sql c) "").
  - destruct (sqlselect c dest) as [s|e].
    + assert (Hp : heap (modify p (set_sql s) w) !! p = Some (set_sql s c))
        by (by rewrite lookup_modify_eq, H).
      assert (Hq : forall q, q <> p ->
                heap (modify p (set_sql s) w) !! q = heap w !! q).
      { intros q Hne. unfold modify. cbn [set_heap heap].
        by apply list_lookup_alter_ne. }
      destruct (selectType =? SelectTypeOne);
        [|destruct (selectType =? SelectTypeMany)];
        (split; [exists (set_sql s c); by repeat split | exact Hq]).
    + split; [exists c; split; [exact H|by repeat split]|done].
  - destruct (selectType =? SelectTypeOne);
      [|destruct (selectType =? SelectTypeMany)];
      (split; [exists c; split; [exact H|by repeat split]|done]).
Qed.

Lemma exec_heap (drv : Driver) (p : addr) (query : string) (args : list any)
    (w : World) (c : Context) :
  heap w !! p = Some c -> heap (snd (exec drv p query args w)) = heap w.
Proof. intros H. by rewrite (exec_spec drv p query args w c H). Qed.

Lemma run_terminal_heap (drv : Driver) (op : terminal) (p : addr) (w : World)
    (c : Context) :
  heap w !! p = Some c ->
  (exists c1, heap (snd (run_terminal drv op p w)) !! p = Some c1
              /\ same_configuration c c1)
  /\ (forall q, q <> p ->
        heap (snd (run_terminal drv op p w)) !! q = heap w !! q).
Proof.
  intros H.
  assert (Hexec : forall query args,
    (exists c1, heap (snd (exec drv p query args w)) !! p = Some c1
                /\ same_configuration c c1)
    /\ (forall q, q <> p -> heap (snd (exec drv p query args w)) !! q = heap w !! q)).
  { intros query args. rewrite (exec_heap drv p query args w c H).
    split; [exists c; split; [exact H|apply same_configuration_refl]|done]. }
  assert (Hfind : forall dest selectType,
    (exists c1, heap (snd (find drv p dest selectType w)) !! p = Some c1
                /\ same_configuration c c1)
    /\ (forall q, q <> p ->
          heap (snd (find drv p dest selectType w)) !! q = heap w !! q)).
  { intros dest selectType.
    destruct (find_heap drv p dest selectType w c H) as [(c1 & H1 & Hs & _) Hq].
    split; [by exists c1|exact Hq]. }
  assert (Hraw : forall dest selectType sql args,
    let w' := modify p (set_args args) (modify p (set_sql sql) w) in
    (exists c1, heap (snd (find drv p dest selectType w')) !! p = Some c1
                /\ same_configuration c c1)
    /\ (forall q, q <> p ->
          heap (snd (find drv p dest selectType w')) !! q = heap w !! q)).
  { intros dest selectType sql args w'.
    assert (H2 : heap w' !! p = Some (set_args args (set_sql sql c)))
      by (unfold w'; by rewrite !lookup_modify_eq, H).
    destruct (find_heap drv p dest selectType w' _ H2) as [(c1 & H1 & Hs & _) Hq].
    split.
    - exists c1. split; [exact H1|]. exact Hs.
    - intros q Hne. rewrite (Hq q Hne). unfold w', modify. cbn [set_heap heap].
      by rewrite !list_lookup_alter_ne. }
  destruct op; cbn [run_terminal]; rewrite snd_rows_of.
  - apply Hfind.
  - apply Hfind.
  - unfold Insert. destruct (Insert_loop data [] []) as [fields params].
    unfold InsertBatch. destruct (InsertBatch_rows [params] [] []) as [ps vs].
    rewrite H. apply Hexec.
  - unfold InsertBatch. destruct (InsertBatch_rows data [] []) as [ps vs].
    rewrite H. apply Hexec.
  - unfold Update. rewrite H, snd_rows_of. apply Hexec.
  - unfold UpdateMap. destruct (UpdateMap_loop args [] []) as [ps sets].
    unfold Update. rewrite H, snd_rows_of. apply Hexec.
  - unfold Delete. rewrite H, snd_rows_of. apply Hexec.
  - apply Hraw.
  - apply Hraw.
  - apply Hexec.
  - apply Hexec.
  - unfold Drop. rewrite H. apply Hexec.
Qed.

(** X8. A terminal operation does not reset the context it releases: in the
    pool the context keeps its transaction handle, table name, projection,
    filters, group, having and order expressions, limit, offset and lock
    flags (only the raw statement and, for Select and Get, the parameters
    may have changed) until the next Acquire takes it out; and no other
    context is touched. *)
Theorem release_keeps_configuration (drv : Driver) (op : terminal) (p : addr)
    (w : World) (c : Context) :
  heap w !! p = Some c ->
  let w1 := snd (run_terminal drv op p w) in
  p ∈ idle w1
  /\ (exists c1, heap w1 !! p = Some c1 /\ same_configuration c c1)
  /\ (forall q, q <> p -> heap w1 !! q = heap w !! q).
Proof.
  intros H w1. destruct (run_terminal_released drv op p w c H) as (Hi & _ & _).
  destruct (run_terminal_heap drv op p w c H) as [Hc Hq].
  fold w1 in Hi, Hc, Hq. split; [|by split].
  rewrite Hi. apply elem_of_cons. by left.
Qed.

(** After Update inside a transaction the pooled context still holds the
    transaction handle and the filter. *)
Lemma release_keeps_configuration_witness :
  let c := Where "id=?" [AInt 1]
             (Name "little_orm" (set_tx (Some 7%nat) allocateContext)) in
  let w := mkWorld [c] [] [] [] in
  let w1 := snd (run_terminal drv_ok (OpUpdate "age=age+?" [AInt 5]) 0%nat w) in
  exists c1, heap w1 !! 0%nat = Some c1 /\ same_configuration c c1.
Proof.
  intros c w w1.
  exact (proj1 (proj2 (release_keeps_configuration drv_ok
           (OpUpdate "age=age+?" [AInt 5]) 0%nat w c eq_refl))).
Defined.

Lemma Acquire_head (w : World) (p : addr) (l : list addr)
    (rest : list (option nat)) :
  idle w = p :: l -> picks w = Some 0%nat :: rest ->
  Acquire w = (p, modify p reset (set_idle l (set_picks rest w))).
Proof.
  intros Hi Hp. unfold Acquire, pool_Get. rewrite Hp, Hi. reflexivity.
Qed.

(** X9. A context that is kept after its terminal operation and used for a
    second one is put into the pool twice; the pool can then hand the same
    context to the next two Acquire calls, so that two callers hold one
    context. *)
Theorem double_release_aliases (drv : Driver) (op1 op2 : terminal) (p : addr)
    (w : World) (c : Context) :
  heap w !! p = Some c ->
  let w2 := snd (run_terminal drv op2 p (snd (run_terminal drv op1 p w))) in
  idle w2 = p :: p :: idle w
  /\ (forall rest, picks w = Some 0%nat :: Some 0%nat :: rest ->
        fst (Acquire w2) = p /\ fst (Acquire (snd (Acquire w2))) = p).
Proof.
  intros H w2.
  destruct (run_terminal_released drv op1 p w c H) as (Hi1 & Hl1 & Hp1).
  destruct (run_terminal_heap drv op1 p w c H) as [(c1 & Hc1 & _) _].
  destruct (run_terminal_released drv op2 p _ c1 Hc1) as (Hi2 & Hl2 & Hp2).
  fold w2 in Hi2, Hl2, Hp2. rewrite Hi1 in Hi2. rewrite Hp1 in Hp2.
  split; [exact Hi2|]. intros rest Hr. rewrite Hr in Hp2.
  rewrite (Acquire_head w2 p (p :: idle w) (Some 0%nat :: rest) Hi2 Hp2).
  cbn [fst snd]. split; [reflexivity|].
  by rewrite (Acquire_head
    (modify p reset (set_idle (p :: idle w) (set_picks (Some 0%nat :: rest) w2)))
    p (idle w) rest eq_refl eq_refl).
Qed.

(** FindMany and then Delete on the same context. *)
Lemma double_release_aliases_witness :
  let w := mkWorld [Name "little_orm" allocateContext] []
             [Some 0%nat; Some 0%nat] [] in
  let w2 := snd (run_terminal drv_ok OpDelete 0%nat
                   (snd (run_terminal drv_ok
                           (OpFindMany (Some (TPtr (TSlice LittleOrm)))) 0%nat w))) in
  idle w2 = [0%nat; 0%nat]
  /\ fst (Acquire w2) = 0%nat /\ fst (Acquire (snd (Acquire w2))) = 0%nat.
Proof.
  intros w w2.
  destruct (double_release_aliases drv_ok
              (OpFindMany (Some (TPtr (TSlice LittleOrm)))) OpDelete 0%nat w _ eq_refl)
    as [Hidle Hsame].
  split; [exact Hidle|]. exact (Hsame [] eq_refl).
Defined.

(** ** Acquire and the other contexts *)

(** X10. Acquire changes no context but the one it returns and makes no call
    on the driver. On an empty pool it allocates exactly one new context, at
    the next free address; when the pool hands out one of its items, nothing
    is allocated and the item leaves the pool. *)
Theorem Acquire_frame (w : World) :
  let q := fst (Acquire w) in
  let w2 := snd (Acquire w) in
  (forall q' c', q' <> q -> heap w !! q' = Some c' -> heap w2 !! q' = Some c')
  /\ calls w2 = calls w
  /\ (idle w = [] ->
      q = length (heap w) /\ length (heap w2) = S (length (heap w)) /\ idle w2 = [])
  /\ (forall i rest p, picks w = Some i :: rest -> idle w !! i = Some p ->
      q = p /\ length (heap w2) = length (heap w) /\ idle w2 = delete i (idle w)).
Proof.
  unfold Acquire, pool_Get, pool_New. cbv zeta.
  assert (Hnew : forall w0 : World, heap w0 = heap w ->
    forall q' c', q' <> length (heap w0) -> heap w !! q' = Some c' ->
    alter reset (length (heap w0)) (heap w0 ++ [allocateContext]) !! q' = Some c').
  { intros w0 E q' c' Hne Hq. rewrite list_lookup_alter_ne by done.
    rewrite E. by apply lookup_app_l_Some. }
  destruct (picks w) as [|[i|] rest] eqn:Ep.
  - cbn [fst snd modify set_heap heap idle calls].
    split; [apply (Hnew w eq_refl)|]. split; [done|]. split.
    + intros E. rewrite length_alter, length_app. cbn [length].
      split; [done|]. split; [lia|done].
    + intros i rest p [=].
  - destruct (idle w !! i) as [p0|] eqn:Ei.
    + cbn [fst snd modify set_heap set_idle set_picks heap idle calls].
      split; [intros q' c' Hne Hq; by rewrite list_lookup_alter_ne|].
      split; [done|]. split.
      * intros E. rewrite E in Ei. discriminate Ei.
      * intros i' rest' p [= -> ->] Hp. rewrite Ei in Hp. injection Hp as ->.
        by rewrite length_alter.
    + cbn [fst snd modify set_heap set_idle set_picks heap idle calls].
      split; [apply (Hnew w eq_refl)|]. split; [done|]. split.
      * intros E. rewrite length_alter, length_app. cbn [length].
        split; [done|]. split; [lia|done].
      * intros i' rest' p [= -> ->] Hp. rewrite Ei in Hp. discriminate Hp.
  - cbn [fst snd modify set_heap set_idle set_picks heap idle calls].
    split; [apply (Hnew w eq_refl)|]. split; [done|]. split.
    + intros E. rewrite length_alter, length_app. cbn [length].
      split; [done|]. split; [lia|done].
    + intros i rest' p [=].
Qed.

(** A checked-out context at address 0, a pooled one at address 1. *)
Lemma Acquire_frame_witness :
  let held := Where "id=?" [AInt 1] (Name "little_orm" allocateContext) in
  let w := mkWorld [held; Name "stale" allocateContext] [1%nat] [Some 0%nat] [] in
  fst (Acquire w) = 1%nat
  /\ heap (snd (Acquire w)) !! 0%nat = Some held
  /\ length (heap (snd (Acquire w))) = 2%nat.
Proof.
  intros held w.
  destruct (Acquire_frame w) as (Hframe & _ & _ & Hpick).
  destruct (Hpick 0%nat [] 1%nat eq_refl eq_refl) as (Hq & Hlen & _).
  split; [exact Hq|]. split; [|exact Hlen].
  apply Hframe; [|reflexivity]. rewrite Hq. discriminate.
Defined.

(** ** Destinations *)

Lemma decodetags_dest_fields (dest : Dest) :
  decodetags dest
  = match dest_fields dest with
    | Some fs => Done (tag_columns fs)
    | None => Panics PanicReflect
    end.
Proof.
  unfold decodetags, dest_fields.
  destruct dest as [ty|]; [|reflexivity].
  destruct ty as [| e | e | ? e | ? e | e |]; cbn [Type_Elem mbind outcome_bind];
    try reflexivity;
    (destruct e as [| | e' | | | |]; cbn [is_Slice Type_Elem mbind outcome_bind];
     try reflexivity;
     [destruct e'; cbn [is_Slice Type_Elem mbind outcome_bind]; try reflexivity|];
     by rewrite decodetags_loop_spec).
Qed.

(** X11. decodetags returns exactly for the destinations whose type has an
    element type (pointer, slice, array, map, channel) that is a struct or a
    slice of structs, and then returns the tag-declared columns of that
    struct; for every other destination it panics. In particular it panics
    for nil, for a struct passed by value, for a pointer to a scalar and for
    a pointer to a slice of pointers to structs. *)
Theorem decodetags_domain (dest : Dest) :
  (forall cols, decodetags dest = Done cols <->
     exists fs, dest_fields dest = Some fs /\ cols = tag_columns fs)
  /\ (decodetags dest = Panics PanicReflect <-> dest_fields dest = None)
  /\ decodetags None = Panics PanicReflect
  /\ (forall fs, decodetags (Some (TStruct fs)) = Panics PanicReflect)
  /\ (forall k, decodetags (Some (TPtr (TBasic k))) = Panics PanicReflect)
  /\ (forall t, decodetags (Some (TPtr (TSlice (TPtr t)))) = Panics PanicReflect).
Proof.
  rewrite decodetags_dest_fields. split; [|split].
  - intros cols. destruct (dest_fields dest) as [fs|]; split.
    + intros [= <-]. by exists fs.
    + intros (fs' & [= <-] & ->). reflexivity.
    + discriminate.
    + intros (fs' & [=] & _).
  - destruct (dest_fields dest); split; congruence.
  - repeat split.
Qed.

Lemma tag_columns_nonempty (fs : list StructField) :
  Forall (fun col => col <> "") (tag_columns fs).
Proof.
  unfold tag_columns. induction fs as [|f fs IH]; [constructor|].
  cbn [map List.filter].
  destruct (String.eqb_spec (Tag_Get (sf_tag f) DBTag) "") as [E|E];
    cbn [negb]; [exact IH|]. by constructor.
Qed.

Lemma tag_columns_sublist (fs : list StructField) :
  tag_columns fs `sublist_of` map db_column fs.
Proof.
  unfold tag_columns, db_column. induction fs as [|f fs IH]; [constructor|].
  cbn [map List.filter].
  destruct (negb (String.eqb (Tag_Get (sf_tag f) DBTag) ""));
    by constructor.
Qed.

Lemma tag_columns_all (fs : list StructField) :
  Forall (fun f => db_column f <> "") fs -> tag_columns fs = map db_column fs.
Proof.
  unfold tag_columns, db_column. induction 1 as [|f fs Hf _ IH]; [reflexivity|].
  cbn [map List.filter].
  destruct (String.eqb_spec (Tag_Get (sf_tag f) DBTag) "") as [E|E]; [done|].
  cbn [negb]. by rewrite IH.
Qed.

(** X12. The columns decodetags returns are the non-empty [db] tag values of
    the struct's fields, in the order of the fields: none of them is empty,
    they form a subsequence of the fields' [db] values (so there are at most
    as many as fields), and when every field has a [db] tag there is one
    column per field. *)
Theorem decodetags_columns (dest : Dest) (cols : list string) :
  decodetags dest = Done cols ->
  exists fs,
    dest_fields dest = Some fs
    /\ Forall (fun col => col <> "") cols
    /\ cols `sublist_of` map db_column fs
    /\ (length cols <= length fs)%nat
    /\ (Forall (fun f => db_column f <> "") fs -> cols = map db_column fs).
Proof.
  rewrite decodetags_dest_fields.
  destruct (dest_fields dest) as [fs|]; [|discriminate].
  intros [= <-]. exists fs. split; [reflexivity|].
  split; [apply tag_columns_nonempty|].
  split; [apply tag_columns_sublist|]. split.
  - rewrite <- (length_map db_column fs).
    apply sublist_length, tag_columns_sublist.
  - apply tag_columns_all.
Qed.

(** [&[]LittleOrm]: one column per field, the [json] tag of [Id] ignored. *)
Lemma decodetags_columns_witness :
  exists fs,
    dest_fields (Some (TPtr (TSlice LittleOrm))) = Some fs
    /\ Forall (fun col => col <> "") ["id"; "name"; "age"; "created_at"; "updated_at"]
    /\ ["id"; "name"; "age"; "created_at"; "updated_at"] `sublist_of` map db_column fs
    /\ (5 <= length fs)%nat
    /\ (Forall (fun f => db_column f <> "") fs ->
        ["id"; "name"; "age"; "created_at"; "updated_at"] = map db_column fs).
Proof.
  exact (decodetags_columns (Some (TPtr (TSlice LittleOrm)))
           ["id"; "name"; "age"; "created_at"; "updated_at"] eq_refl).
Defined.

(** ** The shape of the select statement *)

Lemma string_app_assoc (a b c : string) : (a +:+ b) +:+ c = a +:+ b +:+ c.
Proof.
  induction a as [|x a IH]; [reflexivity|].
  change (String x ((a +:+ b) +:+ c) = String x (a +:+ b +:+ c)). by rewrite IH.
Qed.

Lemma string_app_nil_r (a : string) : a +:+ "" = a.
Proof.
  induction a as [|x a IH]; [reflexivity|].
  change (String x (a +:+ "") = String x a). by rewrite IH.
Qed.

Lemma concat_snoc (sep : string) (l : list string) (x : string) :
  l <> [] -> String.concat sep (l ++ [x]) = String.concat sep l +:+ sep +:+ x.
Proof.
  induction l as [|a l IH]; [done|]. intros _.
  destruct l as [|b l]; [reflexivity|].
  change (String.concat sep ((a :: b :: l) ++ [x]))
    with (a +:+ sep +:+ String.concat sep ((b :: l) ++ [x])).
  rewrite IH by done.
  change (String.concat sep (a :: b :: l))
    with (a +:+ sep +:+ String.concat sep (b :: l)).
  by rewrite !string_app_assoc.
Qed.

Lemma select_clauses_nonempty (c : Context) (proj : string) :
  select_clauses c proj <> [].
Proof. unfold select_clauses. discriminate. Qed.

Lemma concat_lock_clauses (c : Context) (l : list string) :
  l <> [] ->
  String.concat " "
    (l ++ clause (ctx_lockS c) "lock in share mode" ++ clause (ctx_lockX c) "for update")
  = String.concat " " l +:+ lock_suffix c.
Proof.
  intros Hl. unfold lock_suffix, clause.
  destruct (ctx_lockS c), (ctx_lockX c); cbn [app].
  - change (l ++ ["lock in share mode"; "for update"])
      with (l ++ ["lock in share mode"] ++ ["for update"]).
    rewrite app_assoc, concat_snoc, concat_snoc by (try done; by destruct l).
    by rewrite !string_app_assoc.
  - by rewrite concat_snoc, string_app_nil_r.
  - by rewrite concat_snoc.
  - by rewrite app_nil_r, string_app_nil_r.
Qed.

Lemma sqlselect_tail_locks (c : Context) (proj : string) :
  let sqlArray := ["select"; proj] ++ ["from " +:+ ctx_name c] in
  let sqlArray :=
    if negb (length (ctx_wheres c) =? 0)%nat
    then sqlArray ++ [sqlwhere (ctx_wheres c) Grouping] else sqlArray in
  let sqlArray :=
    if negb (String.eqb (ctx_group c) "")
    then sqlArray ++ ["group by " +:+ ctx_group c] else sqlArray in
  let sqlArray :=
    if negb (String.eqb (ctx_having c) "")
    then sqlArray ++ ["having " +:+ ctx_having c] else sqlArray in
  let sqlArray :=
    if negb (String.eqb (ctx_order c) "")
    then sqlArray ++ ["order by " +:+ ctx_order c] else sqlArray in
  let sqlArray :=
    if negb (ctx_limit c =? 0)
    then sqlArray ++ ["limit " +:+ fmt_d (ctx_offset c) +:+ ", " +:+ fmt_d (ctx_limit c)]
    else sqlArray in
  let sqlArray :=
    if ctx_lockS c then sqlArray ++ ["lock in share mode"] else sqlArray in
  let sqlArray :=
    if ctx_lockX c then sqlArray ++ ["for update"] else sqlArray in
  sqljoin sqlArray SeqSpace
  = String.concat " " (select_clauses c proj) +:+ lock_suffix c.
Proof.
  cbv zeta. rewrite sqljoin_concat.
  rewrite <- (concat_lock_clauses c) by apply select_clauses_nonempty.
  unfold select_clauses, SeqSpace, clause. f_equal.
  rewrite !String_eqb_decide, Z_eqb_decide.
  destruct (ctx_wheres c) as [|f F].
  - cbn [length Nat.eqb negb].
    rewrite (bool_decide_eq_true_2 (@nil string = [])) by reflexivity.
    destruct (bool_decide (ctx_group c = "")), (bool_decide (ctx_having c = "")),
      (bool_decide (ctx_order c = "")), (bool_decide (ctx_limit c = 0)),
      (ctx_lockS c), (ctx_lockX c); reflexivity.
  - cbn [length Nat.eqb negb]. rewrite sqlwhere_cons.
    rewrite (bool_decide_eq_false_2 (f :: F = [])) by discriminate.
    destruct (bool_decide (ctx_group c = "")), (bool_decide (ctx_having c = "")),
      (bool_decide (ctx_order c = "")), (bool_decide (ctx_limit c = 0)),
      (ctx_lockS c), (ctx_lockX c); reflexivity.
Qed.

Lemma sqlselect_factor (c : Context) (dest : Dest) :
  sqlselect c dest
  = (proj ← select_projection c dest;
     Done (String.concat " " (select_clauses c proj) +:+ lock_suffix c)).
Proof.
  unfold sqlselect, select_projection.
  destruct (ctx_what c) as [|x xs] eqn:E.
  - cbn [length Nat.eqb negb]. destruct (decodetags dest) as [cols|q];
      cbn [mbind outcome_bind]; [|reflexivity].
    destruct cols as [|col cols]; cbn [length Nat.ltb Nat.leb app mbind outcome_bind].
    + f_equal. apply (sqlselect_tail_locks c "*").
    + f_equal. rewrite <- (sqljoin_concat (col :: cols) ", ").
      apply (sqlselect_tail_locks c (sqljoin (col :: cols) SeqComma)).
  - cbn [length Nat.eqb negb app mbind outcome_bind]. f_equal.
    rewrite <- (sqljoin_concat (x :: xs) ", ").
    apply (sqlselect_tail_locks c (sqljoin (x :: xs) SeqComma)).
Qed.

(** X13. The lock clauses are the end of the statement. LockX appends
    " for update" and LockS appends " lock in share mode" to the statement
    of the context without locks; with both flags set, in whichever order
    the two methods were called, the statement ends in
    " lock in share mode for update": both clauses are sent. *)
Theorem sqlselect_lock_clauses (c : Context) (dest : Dest) (s : string) :
  ctx_lockX c = false -> ctx_lockS c = false ->
  sqlselect c dest = Done s ->
  sqlselect (LockX c) dest = Done (s +:+ " for update")
  /\ sqlselect (LockS c) dest = Done (s +:+ " lock in share mode")
  /\ sqlselect (LockS (LockX c)) dest
     = Done (s +:+ " lock in share mode for update")
  /\ sqlselect (LockX (LockS c)) dest
     = Done (s +:+ " lock in share mode for update").
Proof.
  intros HX HS. rewrite !sqlselect_factor.
  change (select_projection (LockX c) dest) with (select_projection c dest).
  change (select_projection (LockS c) dest) with (select_projection c dest).
  change (select_projection (LockS (LockX c)) dest) with (select_projection c dest).
  change (select_projection (LockX (LockS c)) dest) with (select_projection c dest).
  destruct (select_projection c dest) as [proj|q]; cbn [mbind outcome_bind];
    [|discriminate].
  change (select_clauses (LockX c) proj) with (select_clauses c proj).
  change (select_clauses (LockS c) proj) with (select_clauses c proj).
  change (select_clauses (LockS (LockX c)) proj) with (select_clauses c proj).
  change (select_clauses (LockX (LockS c)) proj) with (select_clauses c proj).
  unfold lock_suffix. cbn [LockX LockS ctx_lockX ctx_lockS]. rewrite HX, HS.
  cbn [String.append]. rewrite string_app_nil_r. intros [= <-].
  by rewrite ?string_app_nil_r.
Qed.

(** The README's locked read, with the other lock added. *)
Lemma sqlselect_lock_clauses_witness :
  let c := Where "id=?" [AInt 1] (Name "little_orm" allocateContext) in
  sqlselect (LockS (LockX c)) (Some (TPtr LittleOrm))
  = Done ("select id, name, age, created_at, updated_at from little_orm where id=?"
          +:+ " lock in share mode for update").
Proof.
  intros c.
  exact (proj1 (proj2 (proj2 (sqlselect_lock_clauses c (Some (TPtr LittleOrm)) _
           eq_refl eq_refl eq_refl)))).
Defined.

(** ** Chains of configuration calls *)

Lemma configure_args (k : config) (c : Context) :
  ctx_args (configure k c) = ctx_args c ++ config_args k.
Proof. destruct k; cbn; try (by rewrite app_nil_r); reflexivity. Qed.

Lemma configure_wheres (k : config) (c : Context) :
  ctx_wheres (configure k c) = ctx_wheres c ++ config_filter k.
Proof.
  destruct k; cbn [configure config_filter]; try (by rewrite app_nil_r);
    try reflexivity.
  unfold WhereIn. cbn [Where ctx_wheres].
  by rewrite WhereIn_places, sqljoin_concat.
Qed.

(** X14. After any chain of configuration calls, the bound parameters are
    the earlier ones followed by the arguments of the Where, WhereIn and
    Having calls in the order of the calls, and the filters are the earlier
    ones followed by the fragments of the Where and WhereIn calls in the
    order of the calls; no configuration call drops a parameter or a
    filter. *)
Theorem configure_all_accumulates (ks : list config) (c : Context) :
  ctx_args (configure_all ks c) = ctx_args c ++ concat (map config_args ks)
  /\ ctx_wheres (configure_all ks c)
     = ctx_wheres c ++ concat (map config_filter ks).
Proof.
  revert c. induction ks as [|k ks IH]; intros c.
  - cbn. by rewrite !app_nil_r.
  - unfold configure_all in *. cbn [fold_left map concat].
    destruct (IH (configure k c)) as [Ha Hw].
    rewrite Ha, Hw, configure_args, configure_wheres.
    by rewrite <- !app_assoc.
Qed.

(** X15. The parameters follow the order of the calls, the clauses of the
    statement do not: Having before Where and Where before Having give the
    same statement, with the where clause before the having clause, but the
    parameters of the call made first come first. So when Having is called
    before Where, the parameters sent are not in the order of the
    placeholders. *)
Theorem Having_before_Where (c : Context) (dest : Dest) (h f : string)
    (a b : list any) (t col : string) :
  h <> "" ->
  sqlselect (Where f b (Having h a c)) dest
    = sqlselect (Having h a (Where f b c)) dest
  /\ ctx_args (Where f b (Having h a c)) = ctx_args c ++ a ++ b
  /\ ctx_args (Having h a (Where f b c)) = ctx_args c ++ b ++ a
  /\ sqlselect (Where f b (Having h a (What [col] (Name t allocateContext)))) dest
     = Done ("select " +:+ col +:+ " from " +:+ t +:+ " where " +:+ f
             +:+ " having " +:+ h)
  /\ ctx_args (Where f b (Having h a (What [col] (Name t allocateContext))))
     = a ++ b.
Proof.
  intros Hh. split; [reflexivity|].
  split; [cbn; by rewrite <- app_assoc|].
  split; [cbn; by rewrite <- app_assoc|].
  split; [|reflexivity].
  unfold sqlselect.
  cbn [Where Having What Name allocateContext ctx_what ctx_name ctx_wheres
       ctx_group ctx_having ctx_order ctx_limit ctx_offset ctx_lockS ctx_lockX
       length Nat.eqb negb app mbind outcome_bind String.eqb Z.eqb].
  destruct (String.eqb_spec h "") as [E|_]; [done|].
  cbn [negb app]. reflexivity.
Qed.

(** TestGroupHaving's Having call, made before a Where call. *)
Lemma Having_before_Where_witness :
  sqlselect (Where "id>?" [AInt 1]
               (Having "age > ?" [AInt 18]
                  (What ["sum(age) as age"] (Name "little_orm" allocateContext))))
    (Some (TPtr (TSlice (TBasic "int8"))))
  = Done "select sum(age) as age from little_orm where id>? having age > ?"
  /\ ctx_args (Where "id>?" [AInt 1]
                 (Having "age > ?" [AInt 18]
                    (What ["sum(age) as age"] (Name "little_orm" allocateContext))))
     = [AInt 18; AInt 1].
Proof.
  destruct (Having_before_Where allocateContext
              (Some (TPtr (TSlice (TBasic "int8")))) "age > ?" "id>?"
              [AInt 18] [AInt 1] "little_orm" "sum(age) as age")
    as (_ & _ & _ & Hs & Ha); [discriminate|].
  split; [exact Hs|exact Ha].
Defined.

(** ** Placeholders and parameters *)

Lemma count_marker_app (a b : string) :
  count_marker (a +:+ b) = (count_marker a + count_marker b)%nat.
Proof.
  induction a as [|x a IH]; [reflexivity|].
  change (count_marker (String x (a +:+ b))
          = (count_marker (String x a) + count_marker b)%nat).
  cbn [count_marker]. rewrite IH. lia.
Qed.

Lemma count_marker_markers (n : nat) :
  count_marker (String.concat ", " (replicate n "?")) = n.
Proof.
  induction n as [|n IH]; [reflexivity|].
  destruct n as [|n]; [reflexivity|].
  change (String.concat ", " (replicate (S (S n)) "?"))
    with ("?" +:+ ", " +:+ String.concat ", " (replicate (S n) "?")).
  rewrite !count_marker_app, IH. reflexivity.
Qed.

Lemma count_marker_value_group (row : list any) :
  count_marker (value_group row) = length row.
Proof.
  unfold value_group. rewrite !count_marker_app, count_marker_markers.
  change (count_marker "(") with 0%nat. change (count_marker ")") with 0%nat.
  lia.
Qed.

Lemma count_marker_values (data : list (list any)) :
  count_marker (String.concat ", " (map value_group data)) = length (concat data).
Proof.
  induction data as [|row data IH]; [reflexivity|].
  destruct data as [|row' data].
  - cbn [map String.concat concat]. rewrite app_nil_r.
    apply count_marker_value_group.
  - change (String.concat ", " (map value_group (row :: row' :: data)))
      with (value_group row +:+ ", "
            +:+ String.concat ", " (map value_group (row' :: data))).
    rewrite !count_marker_app, IH, count_marker_value_group.
    change (count_marker ", ") with 0%nat.
    cbn [concat]. rewrite !length_app. lia.
Qed.

(** X16. InsertBatch never checks the rows against the field list, but the
    values part of its statement always has exactly as many "?" as there
    are parameters, whatever the lengths of the rows; and the in-list that
    WhereIn appends has exactly one "?" per value. *)
Theorem markers_match_params (drv : Driver) (p : addr) (fields : list string)
    (data : list (list any)) (w : World) (c : Context) :
  heap w !! p = Some c ->
  (exists values params,
     calls (snd (InsertBatch drv p fields data w))
     = calls w ++
       [CExec (ctx_tx c)
          ("insert into " +:+ ctx_name c +:+ " (" +:+ String.concat ", " fields
           +:+ ") values " +:+ values)
          params]
     /\ count_marker values = length params)
  /\ (forall field args,
        exists inlist,
          ctx_wheres (WhereIn field args c) = ctx_wheres c ++ [field +:+ inlist]
          /\ count_marker inlist = length args).
Proof.
  intros H. split.
  - exists (String.concat ", " (map value_group data)), (concat data).
    split; [|apply count_marker_values].
    unfold InsertBatch. rewrite InsertBatch_rows_spec, H. cbn [app].
    rewrite (exec_spec drv p _ _ w c H), !sqljoin_concat. reflexivity.
  - intros field args.
    exists (" in (" +:+ String.concat ", " (replicate (length args) "?") +:+ ")").
    split.
    + unfold WhereIn. cbn [Where ctx_wheres].
      by rewrite WhereIn_places, sqljoin_concat.
    + rewrite !count_marker_app, count_marker_markers.
      change (count_marker " in (") with 0%nat.
      change (count_marker ")") with 0%nat. lia.
Qed.

(** Rows of three, no and one value for two fields. *)
Lemma markers_match_params_witness :
  let w := mkWorld [Name "little_orm" allocateContext] [] [] [] in
  exists values params,
    calls (snd (InsertBatch drv_ok 0%nat ["name"; "age"]
                  [[AStr "a"; AInt 1; AInt 2]; []; [AStr "b"]] w))
    = calls w ++
      [CExec None ("insert into little_orm (name, age) values " +:+ values) params]
    /\ count_marker values = length params.
Proof.
  intros w.
  exact (proj1 (markers_match_params drv_ok 0%nat ["name"; "age"]
                  [[AStr "a"; AInt 1; AInt 2]; []; [AStr "b"]] w _ eq_refl)).
Defined.

(** ** The calls of WithTx *)

(** X17. WithTx calls Beginx first. When that fails, the unit of work is not
    run and nothing else is called. Otherwise the unit of work runs once on
    the new transaction, and afterwards: Commit is called exactly when the
    unit of work returned no error; Rollback is called exactly when the unit
    of work returned an error or Commit did, and never before Commit; when
    the unit of work panics, neither is called, the panic goes on to the
    caller and the transaction is left open. *)
Theorem WithTx_calls (drv : Driver) (h : FuncTx) (args : any) (w : World) :
  (forall tx e, Beginx drv (calls w) = (tx, Some e) ->
     calls (snd (WithTx drv h args w)) = calls w ++ [CBeginx])
  /\ (forall t o w',
        Beginx drv (calls w) = (Some t, None) ->
        h (Some t) args (log_call CBeginx w) = (o, w') ->
        calls (snd (WithTx drv h args w))
        = calls w' ++ tx_ending t o (Commit drv (calls w') t)
        /\ (forall q, o = Panics q -> fst (WithTx drv h args w) = Panics q)).
Proof.
  unfold WithTx. split.
  - intros tx e ->. reflexivity.
  - intros t o w' -> ->. destruct o as [[e|]|q]; cbn [tx_ending].
    + split; [reflexivity|discriminate].
    + destruct (Commit drv (calls w') t) as [e|]; cbn.
      * split; [by rewrite <- app_assoc|discriminate].
      * split; [reflexivity|discriminate].
    + split; [symmetry; apply app_nil_r|]. by intros q' [= <-].
Qed.

(** A unit of work that runs the README's update on the transaction and then
    fails. *)
Lemma WithTx_calls_witness :
  let h : FuncTx := fun tx age w =>
    let '(p, w) := AcquireTx tx w in
    let w := modify p (configure_all [CfgName "little_orm"; CfgWhere "id=?" [AInt 1]]) w in
    let '(_, w) := Update drv_ok p "age=age+?" [age] w in
    (Done (Some "update row affect error"), w) in
  calls (snd (WithTx drv_ok h (AInt 100) world0))
  = [CBeginx;
     CExec (Some 7%nat) "update little_orm set age=age+? where id=?"
       [AInt 100; AInt 1];
     CRollback 7%nat].
Proof.
  intros h.
  exact (proj1 (proj2 (WithTx_calls drv_ok h (AInt 100) world0)
                  7%nat _ _ eq_refl eq_refl)).
Defined.

(** ** The pool over whole runs *)


